(** * Process supervisor [Proc] of skywire (pkg/app/appserver/proc.go)

    The supervisor is a concurrent object: callers of [Start], [Stop],
    [Wait], [InjectConn] and [IsRunning] run against one shared [Proc]
    together with the goroutine that [Start] launches.  The embedding is
    an interleaving semantics: every goroutine is a program point of one
    of the methods, every transition is one access to the shared
    structure (an atomic load or compare-and-swap, a mutex operation, a
    channel operation, a [sync.Once] entry, an OS call), and a schedule
    chooses which goroutine moves next. *)

From Stdlib Require Import ZArith String List Bool Lia.

From stdpp Require Import base list.

(** ** Errors *)

(** [errProcAlreadyRunning] and [errProcNotStarted] are the two package
    errors (proc.go:21-24); every other error comes from the operating
    system or the connection and is known by its message.  A Go [error]
    value is an [option error], [None] being [nil]. *)
Inductive error : Type :=
| errProcAlreadyRunning
| errProcNotStarted
| OSError (msg : string).

Definition Error (e : error) : string :=
  match e with
  | errProcAlreadyRunning => "process already running"
  | errProcNotStarted => "process is not started"
  | OSError msg => msg
  end.

(** [strings.Contains]. *)
Definition Contains (s substr : string) : bool :=
  match String.index 0 substr s with
  | Some _ => true
  | None => false
  end.

(** ** Primitives of the Go runtime used by [Proc] *)

Inductive fault : Type :=
| CloseOfClosedChannel
| SendOnClosedChannel
| UnlockOfUnlockedMutex
| NilDereference.

(** Outcome of one primitive operation: it completes, it parks the
    goroutine, or the runtime panics. *)
Inductive outcome (A : Type) : Type :=
| Ok (a : A)
| Blocked
| Panic (f : fault).

Arguments Ok {A} a.

Arguments Blocked {A}.

Arguments Panic {A} f.

(** A buffered [chan struct{}]: only the number of queued elements
    matters.  [hist] is the history of sends and closes performed on
    the channel, oldest first. *)
Inductive ChanOp : Type := ChSend | ChClose.

Record Chan : Type := mkChan {
  buf : nat;
  cap : nat;
  closed : bool;
  hist : list ChanOp
}.

Definition make_chan (n : nat) : Chan :=
  {| buf := 0; cap := n; closed := false; hist := [] |}.

Definition chan_send (c : Chan) : outcome Chan :=
  if closed c then Panic SendOnClosedChannel
  else if (buf c <? cap c)
       then Ok {| buf := S (buf c); cap := cap c; closed := false;
                  hist := hist c ++ [ChSend] |}
       else Blocked.

Definition chan_close (c : Chan) : outcome Chan :=
  if closed c then Panic CloseOfClosedChannel
  else Ok {| buf := buf c; cap := cap c; closed := true;
             hist := hist c ++ [ChClose] |}.

(** [_, ok := <-c]: a queued element is received with [ok = true]; a
    closed and drained channel yields [ok = false]; otherwise the
    receiver parks. *)
Definition chan_recv (c : Chan) : outcome (Chan * bool) :=
  match buf c with
  | S n => Ok ({| buf := n; cap := cap c; closed := closed c;
                  hist := hist c |}, true)
  | O => if closed c then Ok (c, false) else Blocked
  end.

(** [sync.Mutex]: not owned, any goroutine may unlock it. *)
Definition mutex_lock (m : bool) : outcome bool :=
  if m then Blocked else Ok true.

Definition mutex_unlock (m : bool) : outcome bool :=
  if m then Ok false else Panic UnlockOfUnlockedMutex.

(** [sync.Once]: the first [Do] runs its function; a [Do] that arrives
    while the function runs waits for it; later ones return at once. *)
Inductive Once : Type := OnceFresh | OnceRunning | OnceDone.

(** ** The child process, as the operating system sees it *)
Inductive Child : Type :=
| NoChild
| Alive
| Exited (status : option error).

(** [Process.Kill]: its error is discarded by the caller. *)
Definition kill (c : Child) : Child :=
  match c with
  | Alive => Exited (Some (OSError "signal: killed"))
  | _ => c
  end.

(** ** The shared structure *)

(** What the completion goroutine of [Start] has done so far, in order. *)
Inductive Action : Type :=
| ActKill
| ActServe
| ActDiscStart
| ActRecordExit (e : option error)
| ActConnClose (warned : bool)
| ActCmCloseAll
| ActLmCloseAll
| ActUnlock
| ActDiscStop.

Definition Conn : Type := nat.

(** The fields of [Proc] that the methods read or write (proc.go:29-45),
    the state of the child process, and the [trace] of the completion
    goroutine. *)
Record Proc : Type := mkProc {
  isRunning : Z;
  waitMx : bool;
  waitErr : option error;
  cmdProcess : bool;
  rpcGW : bool;
  conn : option Conn;
  connCh : Chan;
  connOnce : Once;
  child : Child;
  trace : list Action
}.

(** [NewProc] (proc.go:48-70). *)
Definition NewProc : Proc :=
  {| isRunning := 0%Z; waitMx := false; waitErr := None;
     cmdProcess := false; rpcGW := false; conn := None;
     connCh := make_chan 1; connOnce := OnceFresh;
     child := NoChild; trace := [] |}.

Definition set_isRunning (v : Z) (p : Proc) : Proc :=
  mkProc v (waitMx p) (waitErr p) (cmdProcess p) (rpcGW p) (conn p)
         (connCh p) (connOnce p) (child p) (trace p).

Definition set_waitMx (v : bool) (p : Proc) : Proc :=
  mkProc (isRunning p) v (waitErr p) (cmdProcess p) (rpcGW p) (conn p)
         (connCh p) (connOnce p) (child p) (trace p).

Definition set_waitErr (v : option error) (p : Proc) : Proc :=
  mkProc (isRunning p) (waitMx p) v (cmdProcess p) (rpcGW p) (conn p)
         (connCh p) (connOnce p) (child p) (trace p).

Definition set_cmdProcess (v : bool) (p : Proc) : Proc :=
  mkProc (isRunning p) (waitMx p) (waitErr p) v (rpcGW p) (conn p)
         (connCh p) (connOnce p) (child p) (trace p).

Definition set_rpcGW (v : bool) (p : Proc) : Proc :=
  mkProc (isRunning p) (waitMx p) (waitErr p) (cmdProcess p) v (conn p)
         (connCh p) (connOnce p) (child p) (trace p).

Definition set_conn (v : option Conn) (p : Proc) : Proc :=
  mkProc (isRunning p) (waitMx p) (waitErr p) (cmdProcess p) (rpcGW p) v
         (connCh p) (connOnce p) (child p) (trace p).

Definition set_connCh (v : Chan) (p : Proc) : Proc :=
  mkProc (isRunning p) (waitMx p) (waitErr p) (cmdProcess p) (rpcGW p)
         (conn p) v (connOnce p) (child p) (trace p).

Definition set_connOnce (v : Once) (p : Proc) : Proc :=
  mkProc (isRunning p) (waitMx p) (waitErr p) (cmdProcess p) (rpcGW p)
         (conn p) (connCh p) v (child p) (trace p).

Definition set_child (v : Child) (p : Proc) : Proc :=
  mkProc (isRunning p) (waitMx p) (waitErr p) (cmdProcess p) (rpcGW p)
         (conn p) (connCh p) (connOnce p) v (trace p).

Definition did (a : Action) (p : Proc) : Proc :=
  mkProc (isRunning p) (waitMx p) (waitErr p) (cmdProcess p) (rpcGW p)
         (conn p) (connCh p) (connOnce p) (child p) (trace p ++ [a]).

(** ** Program points *)

(** One constructor per point of a method at which the goroutine is
    about to touch shared state; the [_ret] points hold the value the
    call returned.  [Bg_*] are the points of the goroutine launched by
    [Start] (proc.go:153-180), which runs [awaitConn] first. *)
Inductive Pc : Type :=
(* Start, proc.go:138-183 *)
| Start_cas
| Start_lock
| Start_spawn
| Start_unlock_err (msg : string)
| Start_go
| Start_ret (r : option error)
(* the goroutine of Start *)
| Bg_recv
| Bg_kill
| Bg_unlock_abn
| Bg_end_abn
| Bg_serve
| Bg_disc_start
| Bg_cmd_wait
| Bg_conn_close
| Bg_cm_close
| Bg_lm_close
| Bg_unlock
| Bg_disc_stop
| Bg_end
(* InjectConn, proc.go:85-99 *)
| Inject_do (c : Conn)
| Inject_conn (c : Conn)
| Inject_gw
| Inject_send
| Inject_close
| Inject_done
| Inject_ret (ok : bool)
(* Stop, proc.go:186-206 *)
| Stop_load
| Stop_signal
| Stop_lock
| Stop_unlock
| Stop_do
| Stop_close
| Stop_done
| Stop_ret (r : option error)
(* Wait, proc.go:209-219 *)
| Wait_load
| Wait_lock
| Wait_read
| Wait_unlock (r : option error)
| Wait_ret (r : option error)
(* IsRunning, proc.go:222-224 *)
| IsRunning_load
| IsRunning_ret (b : bool)
(* a runtime panic *)
| Fault (f : fault).

(** Result of one transition: the goroutine's next point, the new shared
    state and the goroutines it launched. *)
Definition Moved : Type := (Pc * Proc * list Pc)%type.

Definition goto (pc : Pc) (p : Proc) : option Moved := Some (pc, p, []).

(** Continue with [k] when the primitive completed, park when it
    blocked, stop at [Fault] when it panicked. *)
Definition on {A : Type} (r : outcome A) (p : Proc)
    (k : A -> option Moved) : option Moved :=
  match r with
  | Ok a => k a
  | Blocked => None
  | Panic f => Some (Fault f, p, [])
  end.

(** [p.connOnce.Do(f)] where [body] is the first point of [f] and
    [after] the point behind the call. *)
Definition once_do (body after : Pc) (p : Proc) : option Moved :=
  match connOnce p with
  | OnceFresh => goto body (set_connOnce OnceRunning p)
  | OnceRunning => None
  | OnceDone => goto after p
  end.

(** The warning of proc.go:172-174 is logged when closing the connection
    failed with anything but the already-closed error. *)
Definition close_warns (o : option string) : bool :=
  match o with
  | Some msg => negb (Contains msg "use of closed network connection")
  | None => false
  end.

(** One transition of a goroutine at [pc].  [o] is the result of the OS
    or connection call made by this transition, if it makes one
    ([None]: the call succeeded). *)
Definition step_pc (pc : Pc) (o : option string) (p : Proc) : option Moved :=
  match pc with
  (* ---- Start ---- *)
  | Start_cas =>
      (* if !atomic.CompareAndSwapInt32(&p.isRunning, 0, 1) *)
      if (isRunning p =? 0)%Z then goto Start_lock (set_isRunning 1%Z p)
      else goto (Start_ret (Some errProcAlreadyRunning)) p
  | Start_lock =>
      on (mutex_lock (waitMx p)) p (fun m => goto Start_spawn (set_waitMx m p))
  | Start_spawn =>
      (* if err := p.cmd.Start(); err != nil *)
      match o with
      | Some msg => goto (Start_unlock_err msg) p
      | None => goto Start_go (set_child Alive (set_cmdProcess true p))
      end
  | Start_unlock_err msg =>
      (* p.waitMx.Unlock(); return err *)
      on (mutex_unlock (waitMx p)) p
         (fun m => goto (Start_ret (Some (OSError msg))) (set_waitMx m p))
  | Start_go =>
      (* go func() { ... }(); return nil *)
      Some (Start_ret None, p, [Bg_recv])
  | Start_ret _ => None
  (* ---- the goroutine: awaitConn ---- *)
  | Bg_recv =>
      (* if _, ok := <-p.connCh; !ok { return false } *)
      on (chan_recv (connCh p)) p
         (fun r => goto (if snd r then Bg_serve else Bg_kill)
                        (set_connCh (fst r) p))
  | Bg_kill =>
      (* _ = p.cmd.Process.Kill() *)
      if cmdProcess p then goto Bg_unlock_abn (did ActKill (set_child (kill (child p)) p))
      else goto (Fault NilDereference) p
  | Bg_unlock_abn =>
      on (mutex_unlock (waitMx p)) p
         (fun m => goto Bg_end_abn (did ActUnlock (set_waitMx m p)))
  | Bg_end_abn => None
  | Bg_serve =>
      (* rest of awaitConn: RPC server, delta informers, ServeConn *)
      if rpcGW p then goto Bg_disc_start (did ActServe p)
      else goto (Fault NilDereference) p
  | Bg_disc_start =>
      (* p.disc.Start(); defer p.disc.Stop() *)
      goto Bg_cmd_wait (did ActDiscStart p)
  | Bg_cmd_wait =>
      (* p.waitErr = p.cmd.Wait() *)
      match child p with
      | Exited st => goto Bg_conn_close (did (ActRecordExit st) (set_waitErr st p))
      | _ => None
      end
  | Bg_conn_close =>
      (* p.conn.Close(), the error at most logged *)
      match conn p with
      | Some _ => goto Bg_cm_close (did (ActConnClose (close_warns o)) p)
      | None => goto (Fault NilDereference) p
      end
  | Bg_cm_close => goto Bg_lm_close (did ActCmCloseAll p)
  | Bg_lm_close => goto Bg_unlock (did ActLmCloseAll p)
  | Bg_unlock =>
      on (mutex_unlock (waitMx p)) p
         (fun m => goto Bg_disc_stop (did ActUnlock (set_waitMx m p)))
  | Bg_disc_stop =>
      (* the deferred p.disc.Stop() runs when the function returns *)
      goto Bg_end (did ActDiscStop p)
  | Bg_end => None
  (* ---- InjectConn ---- *)
  | Inject_do c => once_do (Inject_conn c) (Inject_ret false) p
  | Inject_conn c => goto Inject_gw (set_conn (Some c) p)
  | Inject_gw => goto Inject_send (set_rpcGW true p)
  | Inject_send =>
      on (chan_send (connCh p)) p (fun c => goto Inject_close (set_connCh c p))
  | Inject_close =>
      on (chan_close (connCh p)) p (fun c => goto Inject_done (set_connCh c p))
  | Inject_done => goto (Inject_ret true) (set_connOnce OnceDone p)
  | Inject_ret _ => None
  (* ---- Stop ---- *)
  | Stop_load =>
      if (isRunning p =? 0)%Z then goto (Stop_ret (Some errProcNotStarted)) p
      else goto Stop_signal p
  | Stop_signal =>
      (* if p.cmd.Process != nil { err := ...Signal(os.Interrupt) ... } *)
      if cmdProcess p then
        match o with
        | Some msg => goto (Stop_ret (Some (OSError msg))) p
        | None => goto Stop_lock p
        end
      else goto Stop_lock p
  | Stop_lock =>
      on (mutex_lock (waitMx p)) p (fun m => goto Stop_unlock (set_waitMx m p))
  | Stop_unlock =>
      (* deferred: p.waitMx.Unlock() *)
      on (mutex_unlock (waitMx p)) p (fun m => goto Stop_do (set_waitMx m p))
  | Stop_do =>
      (* deferred: p.connOnce.Do(func() { close(p.connCh) }) *)
      once_do Stop_close (Stop_ret None) p
  | Stop_close =>
      on (chan_close (connCh p)) p (fun c => goto Stop_done (set_connCh c p))
  | Stop_done => goto (Stop_ret None) (set_connOnce OnceDone p)
  | Stop_ret _ => None
  (* ---- Wait ---- *)
  | Wait_load =>
      if (isRunning p =? 1)%Z then goto Wait_lock p
      else goto (Wait_ret (Some errProcNotStarted)) p
  | Wait_lock =>
      on (mutex_lock (waitMx p)) p (fun m => goto Wait_read (set_waitMx m p))
  | Wait_read => goto (Wait_unlock (waitErr p)) p
  | Wait_unlock r =>
      on (mutex_unlock (waitMx p)) p (fun m => goto (Wait_ret r) (set_waitMx m p))
  | Wait_ret _ => None
  (* ---- IsRunning ---- *)
  | IsRunning_load => goto (IsRunning_ret (isRunning p =? 1)%Z) p
  | IsRunning_ret _ => None
  | Fault _ => None
  end.

(** ** Interleavings *)

Record World : Type := mkWorld {
  proc : Proc;
  threads : list Pc
}.

(** A schedule is a list of events: goroutine [i] makes its next
    transition (with the result [o] of its OS call), or the child
    process exits on its own with [status]. *)
Inductive Event : Type :=
| Run (i : nat) (o : option string)
| ChildExit (status : option string).

Definition exec (ev : Event) (w : World) : option World :=
  match ev with
  | Run i o =>
      match threads w !! i with
      | Some pc =>
          match step_pc pc o (proc w) with
          | Some (pc', p', forked) =>
              Some {| proc := p'; threads := <[i := pc']> (threads w) ++ forked |}
          | None => None
          end
      | None => None
      end
  | ChildExit status =>
      match child (proc w) with
      | Alive => Some {| proc := set_child (Exited (OSError <$> status)) (proc w);
                         threads := threads w |}
      | _ => None
      end
  end.

(** An event that is not enabled leaves the world as it is. *)
Definition apply (ev : Event) (w : World) : World :=
  match exec ev w with
  | Some w' => w'
  | None => w
  end.

Fixpoint run (sched : list Event) (w : World) : World :=
  match sched with
  | [] => w
  | ev :: rest => run rest (apply ev w)
  end.

(** A fresh supervisor with one pending call per element of [calls]. *)
Definition init (calls : list Pc) : World :=
  {| proc := NewProc; threads := calls |}.

(** The first program point of a call. *)
Definition is_call (pc : Pc) : bool :=
  match pc with
  | Start_cas | Inject_do _ | Stop_load | Wait_load | IsRunning_load => true
  | _ => false
  end.

Definition reachable (calls : list Pc) (w : World) : Prop :=
  exists sched, w = run sched (init calls).

(** ** Counting goroutines by phase *)

(** The invariants of the supervisor relate the shared fields to how
    many goroutines are in each phase of a method.  [kind] groups the
    program points that play the same role for the mutex, the [Once]
    and the channel. *)
Inductive Kind : Type :=
| KStartCall      (* Start, before the compare-and-swap *)
| KStartLock      (* Start won the CAS, not yet holding waitMx *)
| KStartHold      (* Start holds waitMx *)
| KStartGo        (* Start spawned the child, about to launch the goroutine *)
| KStartAlready   (* Start returned errProcAlreadyRunning *)
| KStartErr       (* Start returned another error *)
| KStartNil       (* Start returned nil *)
| KBgRecv         (* goroutine waits on connCh, holds waitMx *)
| KBgAbnHold      (* goroutine saw connCh closed, holds waitMx *)
| KBgAbnEnd       (* goroutine ended after killing the child *)
| KBgPreWait      (* goroutine serves, cmd.Wait not yet returned *)
| KBgPostWait     (* goroutine cleans up, still holds waitMx *)
| KBgFree         (* goroutine released waitMx *)
| KInjCall
| KInjConn
| KInjGw
| KInjSend
| KInjClose
| KInjDone
| KInjTrue
| KInjFalse
| KStopPre
| KStopHold
| KStopDo
| KStopClose
| KStopDone
| KStopRet
| KWaitPre
| KWaitHold
| KWaitRet
| KIsRunning
| KFault.

Scheme Equality for Kind.

Definition kind (pc : Pc) : Kind :=
  match pc with
  | Start_cas => KStartCall
  | Start_lock => KStartLock
  | Start_spawn | Start_unlock_err _ => KStartHold
  | Start_go => KStartGo
  | Start_ret (Some errProcAlreadyRunning) => KStartAlready
  | Start_ret (Some _) => KStartErr
  | Start_ret None => KStartNil
  | Bg_recv => KBgRecv
  | Bg_kill | Bg_unlock_abn => KBgAbnHold
  | Bg_end_abn => KBgAbnEnd
  | Bg_serve | Bg_disc_start | Bg_cmd_wait => KBgPreWait
  | Bg_conn_close | Bg_cm_close | Bg_lm_close | Bg_unlock => KBgPostWait
  | Bg_disc_stop | Bg_end => KBgFree
  | Inject_do _ => KInjCall
  | Inject_conn _ => KInjConn
  | Inject_gw => KInjGw
  | Inject_send => KInjSend
  | Inject_close => KInjClose
  | Inject_done => KInjDone
  | Inject_ret true => KInjTrue
  | Inject_ret false => KInjFalse
  | Stop_load | Stop_signal | Stop_lock => KStopPre
  | Stop_unlock => KStopHold
  | Stop_do => KStopDo
  | Stop_close => KStopClose
  | Stop_done => KStopDone
  | Stop_ret _ => KStopRet
  | Wait_load | Wait_lock => KWaitPre
  | Wait_read | Wait_unlock _ => KWaitHold
  | Wait_ret _ => KWaitRet
  | IsRunning_load | IsRunning_ret _ => KIsRunning
  | Fault _ => KFault
  end.

Definition ind (k k' : Kind) : nat := if Kind_beq k k' then 1 else 0.

(** Number of goroutines of [t] in phase [k]. *)
Fixpoint cnt (k : Kind) (t : list Pc) : nat :=
  match t with
  | [] => 0
  | pc :: t' => ind (kind pc) k + cnt k t'
  end.

Definition b2n (b : bool) : nat := if b then 1 else 0.

(** ** The invariant of the supervisor *)

Section Phases.

Variable t : list Pc.

(** Start calls that won the compare-and-swap. *)
Definition won : nat :=
    cnt KStartLock t + cnt KStartHold t + cnt KStartGo t
    + cnt KStartErr t + cnt KStartNil t.

(** Goroutines launched by Start. *)
Definition bgs : nat :=
    cnt KBgRecv t + cnt KBgAbnHold t + cnt KBgAbnEnd t
    + cnt KBgPreWait t + cnt KBgPostWait t + cnt KBgFree t.

(** Goroutines between an acquisition of waitMx and its release. *)
Definition holders : nat :=
    cnt KStartHold t + cnt KStartGo t + cnt KBgRecv t + cnt KBgAbnHold t
    + cnt KBgPreWait t + cnt KBgPostWait t + cnt KStopHold t + cnt KWaitHold t.

(** Goroutines inside the function passed to connOnce.Do. *)
Definition in_once : nat :=
    cnt KInjConn t + cnt KInjGw t + cnt KInjSend t + cnt KInjClose t
    + cnt KInjDone t + cnt KStopClose t + cnt KStopDone t.

(** InjectConn calls that have sent on connCh. *)
Definition sent : nat := cnt KInjClose t + cnt KInjDone t + cnt KInjTrue t.

(** Goroutines that received the connection. *)
Definition served : nat := cnt KBgPreWait t + cnt KBgPostWait t + cnt KBgFree t.

(** Goroutines that found connCh closed and empty. *)
Definition abnormal : nat := cnt KBgAbnHold t + cnt KBgAbnEnd t.

End Phases.

(** The invariant: what every world reached from a fresh supervisor
    satisfies.  Each field ties shared fields of [Proc] to the number
    of goroutines in some phases. *)
Record Inv (w : World) : Prop := mkInv {
  (* isRunning is 0 or 1, and it is 1 exactly when one Start won the CAS *)
  inv_flag :
    (isRunning (proc w) = 0%Z /\ won (threads w) + cnt KStartAlready (threads w) = 0)
    \/ (isRunning (proc w) = 1%Z /\ won (threads w) = 1);
  (* one goroutine per Start that returned nil *)
  inv_bg : bgs (threads w) = cnt KStartNil (threads w);
  (* waitMx is locked exactly when one goroutine is between Lock and Unlock *)
  inv_mutex : holders (threads w) = b2n (waitMx (proc w));
  (* the three states of connOnce *)
  inv_once :
    match connOnce (proc w) with
    | OnceFresh =>
        in_once (threads w) + cnt KInjTrue (threads w) + cnt KInjFalse (threads w) = 0
        /\ closed (connCh (proc w)) = false /\ conn (proc w) = None
    | OnceRunning =>
        in_once (threads w) = 1 /\ cnt KInjFalse (threads w) = 0
    | OnceDone =>
        in_once (threads w) = 0
        /\ 1 <= cnt KInjTrue (threads w) + cnt KStopRet (threads w)
        /\ closed (connCh (proc w)) = true
    end;
  (* at most one InjectConn ever runs the function of the Once *)
  inv_inj :
    cnt KInjConn (threads w) + cnt KInjGw (threads w) + cnt KInjSend (threads w)
    + sent (threads w) <= 1;
  (* connCh is open while a goroutine is still to close it *)
  inv_open :
    0 < cnt KInjConn (threads w) + cnt KInjGw (threads w) + cnt KInjSend (threads w)
        + cnt KInjClose (threads w) + cnt KStopClose (threads w) ->
    closed (connCh (proc w)) = false;
  (* every element sent is in the buffer or was received by the goroutine *)
  inv_chan : sent (threads w) = buf (connCh (proc w)) + served (threads w);
  inv_cap : cap (connCh (proc w)) = 1;
  (* the goroutine saw connCh closed and empty only if nothing was sent *)
  inv_abn :
    0 < abnormal (threads w) ->
    closed (connCh (proc w)) = true /\ sent (threads w) = 0;
  (* waitErr is the exit status of the child once cmd.Wait returned *)
  inv_exit :
    0 < cnt KBgPostWait (threads w) + cnt KBgFree (threads w) ->
    child (proc w) = Exited (waitErr (proc w));
  inv_noexit :
    cnt KBgPostWait (threads w) + cnt KBgFree (threads w) = 0 ->
    waitErr (proc w) = None;
  (* no nil dereference: cmd.Process, rpcGW and conn are set when used *)
  inv_process :
    0 < cnt KStartGo (threads w) + bgs (threads w) -> cmdProcess (proc w) = true;
  inv_gw : 0 < cnt KInjSend (threads w) + sent (threads w) -> rpcGW (proc w) = true;
  inv_conn :
    0 < cnt KInjGw (threads w) + cnt KInjSend (threads w) + sent (threads w) ->
    conn (proc w) <> None;
  (* the history of connCh: the sends, then the close *)
  inv_hist :
    hist (connCh (proc w))
    = repeat ChSend (sent (threads w)) ++ repeat ChClose (b2n (closed (connCh (proc w))));
  inv_closed :
    0 < cnt KInjDone (threads w) + cnt KInjTrue (threads w)
        + cnt KStopDone (threads w) ->
    closed (connCh (proc w)) = true;
  (* the trace is empty before the goroutine exists *)
  inv_trace0 : bgs (threads w) = 0 -> trace (proc w) = [];
  (* no goroutine has panicked *)
  inv_fault : cnt KFault (threads w) = 0
}.

(** ** Calls are neither created nor lost *)

Definition starts (t : list Pc) : nat :=
  cnt KStartCall t + won t + cnt KStartAlready t.

Definition injects (t : list Pc) : nat :=
  cnt KInjCall t + cnt KInjConn t + cnt KInjGw t + cnt KInjSend t
  + cnt KInjClose t + cnt KInjDone t + cnt KInjTrue t + cnt KInjFalse t.

Definition stops (t : list Pc) : nat :=
  cnt KStopPre t + cnt KStopHold t + cnt KStopDo t + cnt KStopClose t
  + cnt KStopDone t + cnt KStopRet t.

(** ** Single transitions *)

(** The world in which goroutine [i] went to [pc] and nothing else
    changed. *)
Definition moved (w : World) (i : nat) (pc : Pc) : World :=
  {| proc := proc w; threads := <[i := pc]> (threads w) |}.

(** A supervisor whose child runs and has not connected. *)
Definition awaiting (calls : list Pc) : World :=
  run [Run 0 None; Run 0 None; Run 0 None; Run 0 None] (init (Start_cas :: calls)).

(** A supervisor whose spawn failed with [msg]. *)
Definition spawn_failed (msg : string) (calls : list Pc) : World :=
  run [Run 0 None; Run 0 None; Run 0 (Some msg); Run 0 None]
      (init (Start_cas :: calls)).

(** ** Concurrent calls of Start *)

Definition valid (calls : list Pc) : Prop :=
  Forall (fun pc => is_call pc = true) calls.

(** ** The channel connCh is closed once and never sent to afterwards *)

Fixpoint closes (h : list ChanOp) : nat :=
  match h with
  | [] => 0
  | ChClose :: h' => S (closes h')
  | ChSend :: h' => closes h'
  end.

(** Does [h] contain a send that comes after a close? *)
Fixpoint send_after_close (h : list ChanOp) : bool :=
  match h with
  | [] => false
  | ChClose :: h' => existsb (fun o => match o with ChSend => true | _ => false end) h'
                     || send_after_close h'
  | ChSend :: h' => send_after_close h'
  end.

(** ** What the goroutine of Start has done *)

(** The actions of the goroutine on the path on which the child
    connected, in the order of proc.go:162-180; [e] is the result of
    cmd.Wait and [warned] tells whether closing the connection logged a
    warning. *)
Definition completion (e : option error) (warned : bool) : list Action :=
  [ActServe; ActDiscStart; ActRecordExit e; ActConnClose warned;
   ActCmCloseAll; ActLmCloseAll; ActUnlock; ActDiscStop].

(** How many of these actions are behind a program point. *)
Definition done_at (pc : Pc) : option nat :=
  match pc with
  | Bg_serve => Some 0
  | Bg_disc_start => Some 1
  | Bg_cmd_wait => Some 2
  | Bg_conn_close => Some 3
  | Bg_cm_close => Some 4
  | Bg_lm_close => Some 5
  | Bg_unlock => Some 6
  | Bg_disc_stop => Some 7
  | Bg_end => Some 8
  | _ => None
  end.

Definition trace_at (pc : Pc) (p : Proc) : Prop :=
  match pc with
  | Bg_recv | Bg_kill => trace p = []
  | Bg_unlock_abn => trace p = [ActKill]
  | Bg_end_abn => trace p = [ActKill; ActUnlock]
  | _ =>
      match done_at pc with
      | Some n => exists warned, trace p = take n (completion (waitErr p) warned)
      | None => True
      end
  end.

Definition TraceInv (w : World) : Prop :=
  forall j pc, threads w !! j = Some pc -> trace_at pc (proc w).

Definition is_bg (pc : Pc) : bool :=
  match kind pc with
  | KBgRecv | KBgAbnHold | KBgAbnEnd | KBgPreWait | KBgPostWait | KBgFree => true
  | _ => false
  end.

(** A run in which the child connects and exits. *)
Definition served_run : list Event :=
  [Run 0 None; Run 0 None; Run 0 None; Run 0 None;
   Run 1 None; Run 1 None; Run 1 None; Run 1 None; Run 1 None; Run 1 None;
   Run 3 None; Run 3 None; Run 3 None; ChildExit None;
   Run 3 None; Run 3 None; Run 3 None; Run 3 None; Run 3 None].




(** ** Stop before the child has connected *)

(** The supervisor after a successful Start, with a call of Stop and a
    call of Wait pending and no call of InjectConn: goroutine 0 is the
    returned Start, 1 the Stop, 2 the Wait and 3 the goroutine of
    Start. *)
Definition started_unconnected : World := awaiting [Stop_load; Wait_load].

Definition stop_parked (pc : Pc) : Prop :=
  match pc with
  | Stop_load | Stop_signal | Stop_lock => True
  | Stop_ret (Some (OSError _)) => True
  | _ => False
  end.

Definition wait_parked (pc : Pc) : Prop :=
  match pc with
  | Wait_load | Wait_lock => True
  | _ => False
  end.

(** The goroutine of Start holds waitMx and waits on connCh; Stop and
    Wait have not got past waitMx.Lock. *)
Definition parked (w : World) : Prop :=
  exists s v,
    threads w = [Start_ret None; s; v; Bg_recv]
    /\ stop_parked s /\ wait_parked v
    /\ isRunning (proc w) = 1%Z /\ waitMx (proc w) = true
    /\ cmdProcess (proc w) = true
    /\ buf (connCh (proc w)) = 0 /\ closed (connCh (proc w)) = false
    /\ connOnce (proc w) = OnceFresh /\ trace (proc w) = [].

(** ** Wait after the child has connected *)



(** ** The life of the child process *)

(** The order in which the states of the child follow each other: not
    spawned, alive, exited with a status that no longer changes. *)
Definition child_le (c c' : Child) : Prop :=
  match c, c' with
  | NoChild, _ => True
  | Alive, NoChild => False
  | Alive, _ => True
  | Exited s, Exited s' => s = s'
  | Exited _, _ => False
  end.

(** The child exists exactly when Start has spawned it, and it has
    exited once the goroutine has killed it. *)
Record ChildInv (w : World) : Prop := mkChildInv {
  ci_none :
    cnt KStartGo (threads w) + bgs (threads w) = 0 -> child (proc w) = NoChild;
  ci_some :
    0 < cnt KStartGo (threads w) + bgs (threads w) -> child (proc w) <> NoChild;
  ci_killed :
    In ActKill (trace (proc w)) -> exists st, child (proc w) = Exited st
}.

(** ** What Wait returns *)

(** A value returned by Wait: errProcNotStarted, nil, or the exit status
    that the goroutine of Start has recorded. *)
Definition wait_result (r : option error) (w : World) : Prop :=
  r = Some errProcNotStarted \/ r = None
  \/ (0 < cnt KBgPostWait (threads w) + cnt KBgFree (threads w)
      /\ child (proc w) = Exited r).

Definition WaitInv (w : World) : Prop :=
  forall k r,
    threads w !! k = Some (Wait_unlock r) \/ threads w !! k = Some (Wait_ret r) ->
    wait_result r w.

(** ** Stop and the exit of the child *)




(** The connection and the gateway are stored by InjectConn only. *)
Record ConnInv (w : World) : Prop := mkConnInv {
  cn_conn :
    cnt KInjGw (threads w) + cnt KInjSend (threads w) + sent (threads w) = 0 ->
    conn (proc w) = None;
  cn_gw :
    cnt KInjSend (threads w) + sent (threads w) = 0 -> rpcGW (proc w) = false
}.

(** A Stop that returned nil has been through connOnce.Do. *)
Definition StopInv (w : World) : Prop :=
  forall k, threads w !! k = Some (Stop_ret None) -> connOnce (proc w) = OnceDone.

(** All the invariants of the supervisor. *)
Record Sound (w : World) : Prop := mkSound {
  s_inv : Inv w;
  s_child : ChildInv w;
  s_trace : TraceInv w;
  s_wait : WaitInv w;
  s_conn : ConnInv w;
  s_stop : StopInv w
}.

(** ** Phases as sets of program points *)

(** The points between an acquisition of waitMx and its release.  The
    goroutine of Start inherits the lock that Start took. *)
Definition holds_lock (pc : Pc) : bool :=
  match pc with
  | Start_spawn | Start_unlock_err _ | Start_go
  | Bg_recv | Bg_kill | Bg_unlock_abn
  | Bg_serve | Bg_disc_start | Bg_cmd_wait
  | Bg_conn_close | Bg_cm_close | Bg_lm_close | Bg_unlock
  | Stop_unlock | Wait_read | Wait_unlock _ => true
  | _ => false
  end.

(** The points inside the function passed to connOnce.Do. *)
Definition runs_once (pc : Pc) : bool :=
  match pc with
  | Inject_conn _ | Inject_gw | Inject_send | Inject_close | Inject_done
  | Stop_close | Stop_done => true
  | _ => false
  end.

(** The points of the goroutine of Start on the path on which the child
    connected, and on the path on which connCh was closed first. *)
Definition is_served (pc : Pc) : bool :=
  match pc with
  | Bg_serve | Bg_disc_start | Bg_cmd_wait | Bg_conn_close | Bg_cm_close
  | Bg_lm_close | Bg_unlock | Bg_disc_stop | Bg_end => true
  | _ => false
  end.


(** The counter [g] counts the goroutines at the points [f]. *)
Definition counts (f : Pc -> bool) (g : list Pc -> nat) : Prop :=
  forall t, g t = length (filter (fun pc => f pc = true) t).


(** A schedule on which the child is spawned, connects and is about to
    exit while a call of Stop is pending. *)
Definition connected : list Event :=
  [Run 0 None; Run 0 None; Run 0 None; Run 0 None;
   Run 1 None; Run 1 None; Run 1 None; Run 1 None; Run 1 None; Run 1 None].

(** ** Termination and absence of deadlock *)

(** The points at which a goroutine has nothing left to do. *)
Definition returned (pc : Pc) : bool :=
  match pc with
  | Start_ret _ | Inject_ret _ | Stop_ret _ | Wait_ret _ | IsRunning_ret _
  | Bg_end_abn | Bg_end => true
  | _ => false
  end.

(** An upper bound of the number of transitions that a goroutine at
    [pc] can still make, those of the goroutine it launches included. *)
Definition weight (pc : Pc) : nat :=
  match pc with
  | Start_cas => 14
  | Start_lock => 13
  | Start_spawn => 12
  | Start_unlock_err _ => 1
  | Start_go => 10
  | Bg_recv => 9
  | Bg_kill => 2
  | Bg_unlock_abn => 1
  | Bg_serve => 8
  | Bg_disc_start => 7
  | Bg_cmd_wait => 6
  | Bg_conn_close => 5
  | Bg_cm_close => 4
  | Bg_lm_close => 3
  | Bg_unlock => 2
  | Bg_disc_stop => 1
  | Inject_do _ => 6
  | Inject_conn _ => 5
  | Inject_gw => 4
  | Inject_send => 3
  | Inject_close => 2
  | Inject_done => 1
  | Stop_load => 7
  | Stop_signal => 6
  | Stop_lock => 5
  | Stop_unlock => 4
  | Stop_do => 3
  | Stop_close => 2
  | Stop_done => 1
  | Wait_load => 4
  | Wait_lock => 3
  | Wait_read => 2
  | Wait_unlock _ => 1
  | IsRunning_load => 1
  | _ => 0
  end.

Fixpoint total (t : list Pc) : nat :=
  match t with
  | [] => 0
  | pc :: t' => weight pc + total t'
  end.

(** The child can still exit once. *)
Definition pending_exit (c : Child) : nat :=
  match c with
  | Exited _ => 0
  | _ => 1
  end.

Definition work (w : World) : nat :=
  total (threads w) + pending_exit (child (proc w)).

(** The number of events of a schedule that are enabled when their turn
    comes. *)
Fixpoint steps (sched : list Event) (w : World) : nat :=
  match sched with
  | [] => 0
  | ev :: rest =>
      match exec ev w with
      | Some w' => S (steps rest w')
      | None => steps rest w
      end
  end.

Definition all_returned (w : World) : Prop :=
  forall i pc, threads w !! i = Some pc -> returned pc = true.

(** Some goroutine can make a transition (its OS call, if it makes one,
    succeeding). *)
Definition can_move (w : World) : Prop :=
  exists j pc m, threads w !! j = Some pc /\ step_pc pc None (proc w) = Some m.

(** The points at which a goroutine may have to wait for another one,
    for the child or for the connection. *)
Definition may_block (pc : Pc) : bool :=
  match pc with
  | Start_lock | Stop_lock | Wait_lock | Bg_recv | Bg_cmd_wait
  | Inject_do _ | Stop_do | Inject_send | Fault _ => true
  | _ => false
  end.

(** The goroutine of Start waits in cmd.Wait for the child, which is
    alive. *)
Definition waiting_exit (w : World) : Prop :=
  child (proc w) = Alive /\ exists j, threads w !! j = Some Bg_cmd_wait.

(** The goroutine of Start waits for a connection that no call of
    InjectConn is there to bring. *)
Definition waiting_conn (w : World) : Prop :=
  connOnce (proc w) = OnceFresh /\ cnt KInjCall (threads w) = 0
  /\ exists j, threads w !! j = Some Bg_recv.

(** * The command gen-config of skywire-cli (cmd/skywire-cli/commands/visor/gen-config.go) *)

Module GenConfig.

Import Ascii.

(** [strings.Split(s, sep)] for a separator of one byte: the substrings
    between the separators, in order; a string without separator is
    returned alone. *)
Fixpoint Split (s : string) (sep : ascii) : list string :=
  match s with
  | EmptyString => [EmptyString]
  | String c s' =>
      if Ascii.eqb c sep then EmptyString :: Split s' sep
      else match Split s' sep with
           | x :: r => String c x :: r
           | [] => [String c EmptyString]
           end
  end.

(** [strings.Join(l, sep)]. *)
Fixpoint Join (l : list string) (sep : ascii) : string :=
  match l with
  | [] => EmptyString
  | [x] => x
  | x :: r => (x ++ String sep (Join r sep))%string
  end.

(** Number of occurrences of a byte. *)
Fixpoint occurrences (c : ascii) (s : string) : nat :=
  match s with
  | EmptyString => 0
  | String a s' => (if Ascii.eqb a c then 1 else 0) + occurrences c s'
  end.

Section Command.

(** [cipher.SecKey], [cipher.PubKey] and the fields of [visorconfig.V1]
    that the command does not touch. *)
Variables SecKey PubKey Rest : Type.

Record V1 : Type := mkV1 {
  SK : SecKey;
  Hypervisors : list PubKey;
  others : Rest
}.

(** The flags of the command (gen-config.go:23-41). *)
Record Flags : Type := mkFlags {
  sk : SecKey;
  output : string;
  replace : bool;
  testEnv : bool;
  packageConfig : bool;
  hypervisor : bool;
  hypervisorPKs : string
}.

(** An error of [ioutil.ReadFile], as [os.IsNotExist] sees it. *)
Inductive ReadError : Type :=
| NotExist
| OtherReadError (msg : string).

(** The functions of other packages that the command calls, and the
    key pair and file contents that this run finds. *)
Record Deps : Type := mkDeps {
  ReadFile : string -> string + ReadError;
  Parse : string -> string -> V1 + string;
  GenerateKeyPair : PubKey * SecKey;
  MakePackageConfig : string -> SecKey -> bool -> V1 + string;
  MakeTestConfig : string -> SecKey -> bool -> V1 + string;
  MakeDefaultConfig : string -> SecKey -> bool -> V1 + string;
  PubKeyFromHex : string -> PubKey + string;
  TrimSpace : string -> string;
  Flush : V1 -> option string;
  MarshalIndent : V1 -> string + string
}.

(** What a run does to the outside: it flushes a config to the file
    (which may fail with [err]), logs the result, or logs a fatal error
    (with the error attached to it) and exits. *)
Inductive Effect : Type :=
| EFlush (conf : V1) (err : option string)
| EInfo (msg : string)
| EFatal (msg : string) (err : option string).

Variable d : Deps.

(** [readOldConfig] (gen-config.go:109-128): [inl] when the process
    exits, else the old config if there is one. *)
Definition readOldConfig (confPath : string) (replace : bool) : Effect + option V1 :=
  match ReadFile d confPath with
  | inr NotExist => inr None
  | inr (OtherReadError msg) =>
      inl (EFatal "Unexpected error occurred when attempting to read old config."
                  (Some msg))
  | inl raw =>
      if negb replace then
        inl (EFatal "Config file already exists. Specify the 'replace,r' flag to replace this."
                    None)
      else
        match Parse d confPath raw with
        | inr err => inl (EFatal "Failed to parse old config file." (Some err))
        | inl conf => inr (Some conf)
        end
  end.

(** The loop of gen-config.go:85-91 over the keys of --hypervisor-pks. *)
Fixpoint addHypervisors (keys : list string) (conf : V1) : Effect + V1 :=
  match keys with
  | [] => inr conf
  | key :: rest =>
      match PubKeyFromHex d (TrimSpace d key) with
      | inr err =>
          inl (EFatal ("Failed to parse hypervisor private key: " ++ key ++ ".")%string
                      (Some err))
      | inl keyParsed =>
          addHypervisors rest
            (mkV1 (SK conf) (Hypervisors conf ++ [keyParsed]) (others conf))
      end
  end.

(** The secret key of the new config: the one of the old config if
    there is one, a fresh one otherwise.  The variable [sk] of [Run]
    hides the flag of that name. *)
Definition chooseKey (old : option V1) : SecKey :=
  match old with
  | None => snd (GenerateKeyPair d)
  | Some oldConf => SK oldConf
  end.

Definition genConf (f : Flags) : string -> SecKey -> bool -> V1 + string :=
  if packageConfig f then MakePackageConfig d
  else if testEnv f then MakeTestConfig d
  else MakeDefaultConfig d.

(** [Run] of [genConfigCmd] (gen-config.go:52-106), [output] being the
    absolute path that [PreRun] computed. *)
Definition Run (f : Flags) : list Effect :=
  match readOldConfig (output f) (replace f) with
  | inl fatal => [fatal]
  | inr old =>
      match genConf f (output f) (chooseKey old) (hypervisor f) with
      | inr err => [EFatal "Failed to create config." (Some err)]
      | inl conf =>
          match (if String.eqb (hypervisorPKs f) "" then inr conf
                 else addHypervisors (Split (hypervisorPKs f) ",") conf) with
          | inl fatal => [fatal]
          | inr conf' =>
              match Flush d conf' with
              | Some err =>
                  [EFlush conf' (Some err);
                   EFatal "Failed to flush config to file." (Some err)]
              | None =>
                  match MarshalIndent d conf' with
                  | inr err =>
                      [EFlush conf' None;
                       EFatal "An unexpected error occurred. Please contact a developer."
                              (Some err)]
                  | inl j =>
                      [EFlush conf' None;
                       EInfo ("Updated file '" ++ output f ++ "' to: " ++ j)%string]
                  end
              end
          end
      end
  end.

End Command.

Arguments mkV1 {SecKey PubKey Rest}.
Arguments SK {SecKey PubKey Rest}.
Arguments Hypervisors {SecKey PubKey Rest}.
Arguments others {SecKey PubKey Rest}.
Arguments EFlush {SecKey PubKey Rest}.
Arguments EInfo {SecKey PubKey Rest}.
Arguments EFatal {SecKey PubKey Rest}.
Arguments ReadFile {SecKey PubKey Rest}.
Arguments Parse {SecKey PubKey Rest}.
Arguments GenerateKeyPair {SecKey PubKey Rest}.
Arguments MakePackageConfig {SecKey PubKey Rest}.
Arguments MakeTestConfig {SecKey PubKey Rest}.
Arguments MakeDefaultConfig {SecKey PubKey Rest}.
Arguments PubKeyFromHex {SecKey PubKey Rest}.
Arguments TrimSpace {SecKey PubKey Rest}.
Arguments Flush {SecKey PubKey Rest}.
Arguments MarshalIndent {SecKey PubKey Rest}.
Arguments readOldConfig {SecKey PubKey Rest}.
Arguments addHypervisors {SecKey PubKey Rest}.
Arguments chooseKey {SecKey PubKey Rest}.
Arguments genConf {SecKey PubKey Rest}.
Arguments Run {SecKey PubKey Rest}.
Arguments mkFlags {SecKey}.
Arguments sk {SecKey}.
Arguments output {SecKey}.
Arguments replace {SecKey}.
Arguments testEnv {SecKey}.
Arguments packageConfig {SecKey}.
Arguments hypervisor {SecKey}.
Arguments hypervisorPKs {SecKey}.


(** A run of the command used to exercise the theorems: no config
    file yet, keys are numbers and a key parses to its length. *)
Definition sample_deps : Deps nat nat unit :=
  {| ReadFile := fun _ => inr NotExist;
     Parse := fun _ _ => inr "unexpected end of JSON input"%string;
     GenerateKeyPair := (1, 2);
     MakePackageConfig := fun _ k _ => inl (mkV1 k [] tt);
     MakeTestConfig := fun _ k _ => inl (mkV1 k [] tt);
     MakeDefaultConfig := fun _ k _ => inl (mkV1 k [7] tt);
     PubKeyFromHex := fun s => match s with
                               | EmptyString => inr "Invalid public key"%string
                               | _ => inl (String.length s)
                               end;
     TrimSpace := fun s => s;
     Flush := fun _ => None;
     MarshalIndent := fun _ => inl "{}"%string |}.

Definition sample_flags (pks : string) : Flags nat :=
  {| sk := 9; output := "/opt/skywire/skywire-config.json"; replace := false;
     testEnv := false; packageConfig := false; hypervisor := false;
     hypervisorPKs := pks |}.

End GenConfig.

(** * Invariants and theorems *)

Lemma cnt_app k (t1 t2 : list Pc) : cnt k (t1 ++ t2) = cnt k t1 + cnt k t2.
Proof. induction t1 as [|a t1 IH]; simpl; [reflexivity | rewrite IH; lia]. Qed.

Lemma cnt_insert k (t : list Pc) i a b :
  t !! i = Some a ->
  cnt k (<[i := b]> t) + ind (kind a) k = cnt k t + ind (kind b) k.
Proof.
  revert i. induction t as [|x t IH]; intros [|i] H; simpl in *; try discriminate.
  - injection H as ->. lia.
  - specialize (IH i H). lia.
Qed.

(** The effect of one transition on every counter. *)
Lemma cnt_moved k (t : list Pc) i a b forked :
  t !! i = Some a ->
  cnt k (<[i := b]> t ++ forked) + ind (kind a) k
  = cnt k t + ind (kind b) k + cnt k forked.
Proof. intros H. rewrite cnt_app. pose proof (cnt_insert k t i a b H). lia. Qed.

Lemma ind_same k : ind k k = 1.
Proof.
  unfold ind.
  assert (E : Kind_beq k k = true) by (apply internal_Kind_dec_lb; reflexivity).
  rewrite E. reflexivity.
Qed.

Lemma cnt_lookup k (t : list Pc) i a :
  t !! i = Some a -> kind a = k -> 1 <= cnt k t.
Proof.
  revert i. induction t as [|x t IH]; intros [|i] H Hk; simpl in *; try discriminate.
  - injection H as ->. subst k. rewrite ind_same. lia.
  - specialize (IH i H Hk). lia.
Qed.


Lemma cnt_zero k (t : list Pc) i a :
  cnt k t = 0 -> t !! i = Some a -> kind a <> k.
Proof.
  intros Hz Hi Hk. pose proof (cnt_lookup k t i a Hi Hk). lia.
Qed.

(** Where a goroutine of the next world comes from. *)
Lemma lookup_moved (t : list Pc) i a b forked j x :
  t !! i = Some a ->
  (<[i := b]> t ++ forked) !! j = Some x ->
  (j = i /\ x = b) \/ (j <> i /\ t !! j = Some x) \/
  (length t <= j /\ forked !! (j - length t) = Some x).
Proof.
  intros Hi Hj.
  assert (Hlen : i < length t) by (eapply lookup_lt_Some; eauto).
  destruct (decide (j < length t)) as [Hlt|Hge].
  - rewrite lookup_app_l in Hj by (rewrite length_insert; exact Hlt).
    destruct (decide (j = i)) as [->|Hne].
    + rewrite list_lookup_insert_eq in Hj by exact Hlen.
      injection Hj as <-. left; auto.
    + rewrite list_lookup_insert_ne in Hj by auto. right; left; auto.
  - rewrite lookup_app_r in Hj by (rewrite length_insert; lia).
    rewrite length_insert in Hj. right; right. split; [lia | exact Hj].
Qed.

Ltac unfold_phases :=
  unfold won, bgs, holders, in_once, sent, served, abnormal in *.

(** Case analysis on one transition: [Hs : step_pc pc o p = Some _]. *)
Ltac split_step Hs :=
  cbv beta iota delta [step_pc goto on once_do mutex_lock mutex_unlock chan_send
    chan_recv chan_close] in Hs;
  simpl in Hs;
  repeat match type of Hs with
         | context [match ?x with _ => _ end] => is_var x; destruct x
         | context [if ?b then _ else _] => destruct b eqn:?
         | context [match ?x with _ => _ end] => destruct x eqn:?
         end;
  simpl in Hs; try discriminate;
  injection Hs as <- <- <-;
  repeat match goal with
         | H : (_ =? _)%Z = true |- _ => apply Z.eqb_eq in H
         | H : (_ =? _)%Z = false |- _ => apply Z.eqb_neq in H
         | H : (_ <? _) = true |- _ => apply Nat.ltb_lt in H
         | H : (_ <? _) = false |- _ => apply Nat.ltb_ge in H
         end.

(** Express the counters of the new thread list [t'] that occur in the
    goal by those of the old list [t]; [Hc] is [cnt_moved] for this
    transition. *)
Ltac counters Hc t t' :=
  repeat match goal with
         | |- context [cnt ?k t'] =>
             let E := fresh "E" in
             pose proof (Hc k) as E; unfold ind in E; simpl in E;
             first
               [ let E' := fresh in
                 assert (E' : cnt k t' = cnt k t) by (clear - E; lia);
                 rewrite E'; clear E E'
               | let n := fresh "n" in
                 set (n := cnt k t') in *; clearbody n ]
         end.

(** Use the implications among the hypotheses whose premise holds. *)
Ltac fwd :=
  repeat match goal with
         | H : 0 < ?x -> _ |- _ =>
             let H' := fresh in
             assert (H' : 0 < x) by lia; specialize (H H'); clear H'
         | H : ?x = 0 -> _ |- _ =>
             let H' := fresh in
             assert (H' : x = 0) by lia; specialize (H H'); clear H'
         | H : _ /\ _ |- _ => destruct H
         end.

(** The history of connCh after a transition. *)
Ltac hist_step :=
  match goal with
  | H : ?hs = repeat ChSend ?y ++ _ |- _ = repeat ChSend ?x ++ _ =>
      first
        [ replace x with y by lia; rewrite H; simpl; rewrite ?app_nil_r; reflexivity
        | replace y with 0 in H by lia; replace x with 1 by lia;
          rewrite H; reflexivity ]
  end.

Ltac fin Hc t t' :=
  simpl; unfold_phases; simpl; counters Hc t t'; clear Hc;
  try match goal with
      | |- context [match ?o with OnceFresh => _ | _ => _ end] => destruct o
      end;
  repeat match goal with
         | |- _ /\ _ => split
         | |- _ -> _ => intro
         end;
  first [ lia | congruence | assumption | hist_step
        | fwd; subst; simpl in *;
          first [ lia | congruence | exfalso; lia | assumption | reflexivity ]
        | match goal with o : Once |- _ => destruct o end;
          fwd; subst; simpl in *;
          first [ lia | congruence | exfalso; lia | assumption | reflexivity ] ].

(** Every transition preserves the invariant. *)
Lemma Inv_exec ev w w' : Inv w -> exec ev w = Some w' -> Inv w'.
Proof.
  intros HI Hex. destruct w as [p t].
  destruct ev as [i o | st]; simpl in Hex.
  - destruct (t !! i) as [pc|] eqn:Hi; [|discriminate].
    destruct (step_pc pc o p) as [[[pc' p'] forked]|] eqn:Hs; [|discriminate].
    injection Hex as <-.
    pose proof (fun k => cnt_moved k t i pc pc' forked Hi) as Hc.
    pose proof (cnt_lookup _ t i pc Hi eq_refl) as Hme.
    destruct HI as [Hflag Hbg Hmx Honce Hinj Hopen Hchan Hcap Habn Hexit
                      Hnoexit Hproc Hgw Hconn Hhist Hclosed Htr0 Hfault].
    destruct p as [isR mx we cp gw cn [bf cp' cl hs] once chld tr].
    simpl in *.
    remember (<[i := pc']> t ++ forked) as t' eqn:Et'. clear Et'.
    destruct pc; simpl in Hme; split_step Hs; constructor; fin Hc t t'.
  - destruct (child p) eqn:Hch; try discriminate. injection Hex as <-.
    destruct HI as [Hflag Hbg Hmx Honce Hinj Hopen Hchan Hcap Habn Hexit
                      Hnoexit Hproc Hgw Hconn Hhist Hclosed Htr0 Hfault].
    destruct p as [isR mx we cp gw cn [bf cp' cl hs] once chld tr].
    simpl in *. subst chld.
    constructor; simpl; try assumption.
    intros Hpos. specialize (Hexit Hpos). discriminate.
Qed.

Lemma Inv_apply ev w : Inv w -> Inv (apply ev w).
Proof.
  intros HI. unfold apply. destruct (exec ev w) eqn:E; [|exact HI].
  eapply Inv_exec; eauto.
Qed.

Lemma Inv_run sched w : Inv w -> Inv (run sched w).
Proof.
  revert w. induction sched as [|ev sched IH]; intros w HI; simpl; [exact HI|].
  apply IH, Inv_apply, HI.
Qed.

(** In a list of pending calls every counter but those of the first
    program points is zero. *)
Lemma cnt_calls k (calls : list Pc) :
  Forall (fun pc => is_call pc = true) calls ->
  match k with
  | KStartCall | KInjCall | KStopPre | KWaitPre | KIsRunning => True
  | _ => cnt k calls = 0
  end.
Proof.
  induction 1 as [|pc calls Hpc _ IH]; [destruct k; exact I || reflexivity|].
  destruct pc; try discriminate; destruct k; simpl in *; try exact I;
    try exact IH.
Qed.

Lemma Inv_init (calls : list Pc) :
  Forall (fun pc => is_call pc = true) calls -> Inv (init calls).
Proof.
  intros Hc.
  pose proof (fun k => cnt_calls k calls Hc) as Z.
  constructor; simpl; unfold_phases;
    repeat match goal with
           | |- context [cnt ?k calls] =>
               let E := fresh in pose proof (Z k) as E; simpl in E; rewrite E; clear E
           end; simpl; auto; try lia; try discriminate.
Qed.

Theorem Inv_reachable calls w :
  Forall (fun pc => is_call pc = true) calls -> reachable calls w -> Inv w.
Proof.
  intros Hc [sched ->]. apply Inv_run, Inv_init, Hc.
Qed.

Lemma roles_exec ev w w' :
  Inv w -> exec ev w = Some w' ->
  starts (threads w') = starts (threads w)
  /\ injects (threads w') = injects (threads w)
  /\ stops (threads w') = stops (threads w).
Proof.
  intros HI Hex. pose proof (inv_fault _ (Inv_exec _ _ _ HI Hex)) as HF'.
  pose proof (inv_fault _ HI) as HF.
  destruct w as [p t]. destruct ev as [i o | st]; simpl in Hex.
  - destruct (t !! i) as [pc|] eqn:Hi; [|discriminate].
    destruct (step_pc pc o p) as [[[pc' p'] forked]|] eqn:Hs; [|discriminate].
    injection Hex as <-. simpl in *.
    pose proof (fun k => cnt_moved k t i pc pc' forked Hi) as Hc.
    remember (<[i := pc']> t ++ forked) as t' eqn:Et'. clear Et'.
    pose proof (Hc KFault) as EF.
    destruct p as [isR mx we cp gw cn [bf cp' cl hs] once chld tr].
    destruct pc; split_step Hs; unfold ind in EF; simpl in EF;
      unfold starts, injects, stops, won;
      repeat split; counters Hc t t'; lia.
  - destruct (child p); try discriminate. injection Hex as <-. auto.
Qed.

Lemma roles_run sched w :
  Inv w ->
  starts (threads (run sched w)) = starts (threads w)
  /\ injects (threads (run sched w)) = injects (threads w)
  /\ stops (threads (run sched w)) = stops (threads w).
Proof.
  revert w. induction sched as [|ev sched IH]; intros w HI; simpl; [auto|].
  unfold apply. destruct (exec ev w) as [w'|] eqn:E; [|apply IH, HI].
  destruct (roles_exec _ _ _ HI E) as (E1 & E2 & E3).
  destruct (IH w' (Inv_exec _ _ _ HI E)) as (F1 & F2 & F3).
  rewrite F1, F2, F3, E1, E2, E3. auto.
Qed.

(** A call that has returned stays returned: the counters of the final
    program points never decrease. *)
Lemma returned_exec ev w w' k :
  exec ev w = Some w' ->
  match k with
  | KStartAlready | KStartErr | KStartNil | KInjTrue | KInjFalse
  | KStopRet | KWaitRet | KBgAbnEnd => cnt k (threads w) <= cnt k (threads w')
  | _ => True
  end.
Proof.
  intros Hex. destruct w as [p t]. destruct ev as [i o | st]; simpl in Hex.
  - destruct (t !! i) as [pc|] eqn:Hi; [|discriminate].
    destruct (step_pc pc o p) as [[[pc' p'] forked]|] eqn:Hs; [|discriminate].
    injection Hex as <-. simpl in *.
    pose proof (cnt_moved k t i pc pc' forked Hi) as Hc.
    assert (Hk : match k with
                 | KStartAlready | KStartErr | KStartNil | KInjTrue | KInjFalse
                 | KStopRet | KWaitRet | KBgAbnEnd => ind (kind pc) k = 0
                 | _ => True
                 end).
    { destruct pc; try discriminate; destruct k; try exact I; try reflexivity. }
    destruct k; try exact I; lia.
  - destruct (child p); try discriminate. injection Hex as <-.
    destruct k; simpl; auto.
Qed.

Lemma returned_run sched w k :
  match k with
  | KStartAlready | KStartErr | KStartNil | KInjTrue | KInjFalse
  | KStopRet | KWaitRet | KBgAbnEnd =>
      cnt k (threads w) <= cnt k (threads (run sched w))
  | _ => True
  end.
Proof.
  revert w. induction sched as [|ev sched IH]; intros w; simpl.
  - destruct k; auto.
  - unfold apply. destruct (exec ev w) as [w'|] eqn:E; [|apply IH].
    pose proof (returned_exec ev w w' k E) as H1. specialize (IH w').
    destruct k; auto; lia.
Qed.

Lemma exec_local w i o pc pc' :
  threads w !! i = Some pc ->
  step_pc pc o (proc w) = Some (pc', proc w, []) ->
  exec (Run i o) w = Some (moved w i pc').
Proof.
  intros Hi Hs. unfold exec, moved. rewrite Hi, Hs, app_nil_r. reflexivity.
Qed.

Lemma apply_local w i o pc pc' :
  threads w !! i = Some pc ->
  step_pc pc o (proc w) = Some (pc', proc w, []) ->
  apply (Run i o) w = moved w i pc'.
Proof. intros Hi Hs. unfold apply. rewrite (exec_local w i o pc pc' Hi Hs). reflexivity. Qed.

Lemma moved_lookup w i pc pc0 :
  threads w !! i = Some pc0 -> threads (moved w i pc) !! i = Some pc.
Proof.
  intros H. simpl. apply list_lookup_insert_eq. eapply lookup_lt_Some; eauto.
Qed.

Lemma moved_moved w i a b : moved (moved w i a) i b = moved w i b.
Proof. unfold moved; simpl. rewrite list_insert_insert_eq. reflexivity. Qed.

(** ** Stop and Wait on a supervisor that was not started *)

(** C5.  While the running flag is 0, a call of Stop and a call of Wait
    each return errProcNotStarted in one transition: the transition is
    enabled (the call does not block) and leaves the shared structure
    as it was. *)
Theorem C5_not_started (w : World) (i : nat) (o : option string) :
  isRunning (proc w) = 0%Z ->
  (threads w !! i = Some Stop_load ->
   exec (Run i o) w = Some (moved w i (Stop_ret (Some errProcNotStarted))))
  /\ (threads w !! i = Some Wait_load ->
      exec (Run i o) w = Some (moved w i (Wait_ret (Some errProcNotStarted)))).
Proof.
  intros H0. split; intros Hi; eapply exec_local; eauto; simpl; rewrite H0;
    reflexivity.
Qed.

Lemma C5_not_started_witness :
  isRunning (proc (init [Stop_load; Wait_load])) = 0%Z
  /\ exec (Run 0 None) (init [Stop_load; Wait_load])
     = Some (moved (init [Stop_load; Wait_load]) 0 (Stop_ret (Some errProcNotStarted)))
  /\ exec (Run 1 None) (init [Stop_load; Wait_load])
     = Some (moved (init [Stop_load; Wait_load]) 1 (Wait_ret (Some errProcNotStarted))).
Proof.
  split; [reflexivity|]. split.
  - apply (C5_not_started (init [Stop_load; Wait_load]) 0 None); reflexivity.
  - apply (C5_not_started (init [Stop_load; Wait_load]) 1 None); reflexivity.
Defined.

(** The flag is 0 as long as no call of Start was made. *)
Lemma never_started calls sched :
  Forall (fun pc => is_call pc = true) calls ->
  starts calls = 0 ->
  isRunning (proc (run sched (init calls))) = 0%Z.
Proof.
  intros Hc Hs.
  pose proof (Inv_init calls Hc) as HI.
  destruct (roles_run sched _ HI) as (E & _ & _). simpl in E.
  destruct (inv_flag _ (Inv_run sched _ HI)) as [[H0 _]|[_ H1]]; [exact H0|].
  unfold starts in *. simpl in *. lia.
Qed.

(** ** Stop when the signal cannot be delivered *)

(** C8.  A call of Stop on a started supervisor whose process handle
    exists, when Signal fails with [msg]: the call returns that error
    after its load and its signal transition, and the shared structure
    (mutex, channel, Once included) is as it was before the call. *)
Theorem C8_signal_error (w : World) (i : nat) (o : option string) (msg : string) :
  isRunning (proc w) <> 0%Z ->
  cmdProcess (proc w) = true ->
  threads w !! i = Some Stop_load ->
  exec (Run i o) w = Some (moved w i Stop_signal)
  /\ exec (Run i (Some msg)) (moved w i Stop_signal)
     = Some (moved w i (Stop_ret (Some (OSError msg))))
  /\ run [Run i o; Run i (Some msg)] w = moved w i (Stop_ret (Some (OSError msg)))
  /\ proc (run [Run i o; Run i (Some msg)] w) = proc w.
Proof.
  intros Hr Hp Hi.
  assert (E1 : exec (Run i o) w = Some (moved w i Stop_signal)).
  { eapply exec_local; eauto. simpl. apply Z.eqb_neq in Hr. rewrite Hr. reflexivity. }
  assert (E2 : exec (Run i (Some msg)) (moved w i Stop_signal)
               = Some (moved w i (Stop_ret (Some (OSError msg))))).
  { rewrite <- (moved_moved w i Stop_signal (Stop_ret (Some (OSError msg)))).
    eapply exec_local; [eapply moved_lookup; eauto|].
    simpl. rewrite Hp. reflexivity. }
  assert (E3 : run [Run i o; Run i (Some msg)] w
               = moved w i (Stop_ret (Some (OSError msg)))).
  { simpl. unfold apply. rewrite E1, E2. reflexivity. }
  repeat split; auto. rewrite E3. reflexivity.
Qed.

Lemma C8_signal_error_witness :
  run [Run 1 None; Run 1 (Some "os: process already finished"%string)]
      (awaiting [Stop_load])
  = moved (awaiting [Stop_load]) 1
          (Stop_ret (Some (OSError "os: process already finished"))).
Proof.
  apply (C8_signal_error (awaiting [Stop_load]) 1 None
           "os: process already finished").
  - vm_compute. discriminate.
  - reflexivity.
  - reflexivity.
Defined.

(** ** The running flag *)

Lemma flag_exec ev w w' :
  exec ev w = Some w' ->
  isRunning (proc w') = isRunning (proc w)
  \/ (exists i o, ev = Run i o /\ threads w !! i = Some Start_cas
                  /\ isRunning (proc w) = 0%Z /\ isRunning (proc w') = 1%Z).
Proof.
  intros Hex. destruct w as [p t]. destruct ev as [i o | st]; simpl in Hex.
  - destruct (t !! i) as [pc|] eqn:Hi; [|discriminate].
    destruct (step_pc pc o p) as [[[pc' p'] forked]|] eqn:Hs; [|discriminate].
    injection Hex as <-. simpl.
    destruct p as [isR mx we cp gw cn [bf cp' cl hs] once chld tr].
    destruct pc; split_step Hs; simpl; auto.
    right. exists i, o. simpl. auto.
  - destruct (child p); try discriminate. injection Hex as <-. auto.
Qed.

Lemma flag_run sched w :
  isRunning (proc w) = 1%Z -> isRunning (proc (run sched w)) = 1%Z.
Proof.
  revert w. induction sched as [|ev sched IH]; intros w H1; simpl; [exact H1|].
  apply IH. unfold apply. destruct (exec ev w) as [w'|] eqn:E; [|exact H1].
  destruct (flag_exec _ _ _ E) as [-> | (_ & _ & _ & _ & _ & ->)]; auto.
Qed.

(** C10.  Once the running flag is 1 it is 1 after every schedule, and
    every IsRunning call made then returns true; the only transition
    that changes the flag is the compare-and-swap of Start, from 0 to
    1.  Nothing in this depends on what happened to the child: it holds
    after a failed spawn and after the child exited and the cleanup
    finished. *)
Theorem C10_flag_never_reset (w : World) (sched : list Event) :
  isRunning (proc w) = 1%Z ->
  isRunning (proc (run sched w)) = 1%Z
  /\ (forall i o, threads (run sched w) !! i = Some IsRunning_load ->
        exec (Run i o) (run sched w)
        = Some (moved (run sched w) i (IsRunning_ret true)))
  /\ (forall ev w1 w2, exec ev w1 = Some w2 ->
        isRunning (proc w2) <> isRunning (proc w1) ->
        exists i o, ev = Run i o /\ threads w1 !! i = Some Start_cas
                    /\ isRunning (proc w1) = 0%Z /\ isRunning (proc w2) = 1%Z).
Proof.
  intros H1. pose proof (flag_run sched w H1) as H2.
  split; [exact H2|]. split.
  - intros i o Hi. eapply exec_local; eauto. simpl. rewrite H2. reflexivity.
  - intros ev w1 w2 Hex Hne.
    destruct (flag_exec _ _ _ Hex) as [E|E]; [congruence | exact E].
Qed.

Lemma C10_flag_never_reset_witness :
  isRunning (proc (spawn_failed "not found" [IsRunning_load])) = 1%Z
  /\ isRunning (proc (run [Run 1 None] (spawn_failed "not found" [IsRunning_load]))) = 1%Z.
Proof.
  split; [reflexivity|].
  apply (C10_flag_never_reset (spawn_failed "not found" [IsRunning_load])
           [Run 1 None]).
  reflexivity.
Defined.

(** ** Start when the spawn fails *)

(** C4.  The spawn fails with [msg]: Start returns that error, and then
    IsRunning returns true and Wait returns nil, where false and a
    non-nil error are specified. *)
Theorem C4_spawn_failure (msg : string) :
  run [Run 1 None; Run 2 None; Run 2 None; Run 2 None; Run 2 None]
      (spawn_failed msg [IsRunning_load; Wait_load])
  = {| proc := set_isRunning 1 NewProc;
       threads := [Start_ret (Some (OSError msg)); IsRunning_ret true;
                   Wait_ret None] |}.
Proof. reflexivity. Qed.





(** ** Concurrent calls of InjectConn *)





(** C9.  Whatever calls are made on a fresh supervisor and however they
    interleave with each other, with the goroutine of Start and with
    the exit of the child: no goroutine panics (so connCh is never
    closed twice nor sent to when closed), and the history of connCh is
    empty, one send, one send then one close, or one close. *)
Theorem C9_channel_safe (calls : list Pc) (sched : list Event) :
  valid calls ->
  let w := run sched (init calls) in
  (forall i f, threads w !! i <> Some (Fault f))
  /\ (hist (connCh (proc w)) = [] \/ hist (connCh (proc w)) = [ChSend]
      \/ hist (connCh (proc w)) = [ChSend; ChClose]
      \/ hist (connCh (proc w)) = [ChClose])
  /\ closes (hist (connCh (proc w))) <= 1
  /\ send_after_close (hist (connCh (proc w))) = false.
Proof.
  intros Hv w.
  assert (HI : Inv w) by (apply Inv_run, Inv_init, Hv).
  assert (Hh : hist (connCh (proc w)) = [] \/ hist (connCh (proc w)) = [ChSend]
               \/ hist (connCh (proc w)) = [ChSend; ChClose]
               \/ hist (connCh (proc w)) = [ChClose]).
  { pose proof (inv_hist _ HI) as Hh. pose proof (inv_inj _ HI) as Hinj.
    rewrite Hh.
    destruct (sent (threads w)) as [|[|n]]; [| |lia];
      destruct (closed (connCh (proc w))); simpl; auto. }
  split; [|split; [exact Hh|]].
  - intros i f Hi.
    pose proof (cnt_lookup KFault _ _ _ Hi eq_refl).
    pose proof (inv_fault _ HI). lia.
  - destruct Hh as [-> | [-> | [-> | ->]]]; simpl; auto.
Qed.

Lemma C9_channel_safe_witness :
  closes (hist (connCh (proc (run [Run 0 None; Run 0 None; Run 0 None;
                                   Run 0 None; Run 1 None; Run 2 None]
                                  (init [Start_cas; Inject_do 3; Stop_load]))))) <= 1.
Proof.
  apply (C9_channel_safe [Start_cas; Inject_do 3; Stop_load]
           [Run 0 None; Run 0 None; Run 0 None; Run 0 None; Run 1 None; Run 2 None]).
  repeat constructor.
Defined.

Lemma bgs_cons pc t : bgs (pc :: t) = b2n (is_bg pc) + bgs t.
Proof.
  unfold bgs, is_bg. simpl. destruct (kind pc); unfold ind; simpl; lia.
Qed.

Lemma bgs_lookup (t : list Pc) i a :
  t !! i = Some a -> is_bg a = true -> 1 <= bgs t.
Proof.
  revert i. induction t as [|x t IH]; intros [|i] H Ha; simpl in H; try discriminate;
    rewrite bgs_cons.
  - injection H as ->. rewrite Ha. simpl. lia.
  - specialize (IH i H Ha). lia.
Qed.

Lemma bgs_two (t : list Pc) i j a b :
  i <> j -> t !! i = Some a -> t !! j = Some b ->
  is_bg a = true -> is_bg b = true -> 2 <= bgs t.
Proof.
  revert i j. induction t as [|x t IH]; intros [|i] [|j] Hij Hi Hj Ha Hb;
    simpl in Hi, Hj; try discriminate; try congruence; rewrite bgs_cons.
  - injection Hi as ->. rewrite Ha. pose proof (bgs_lookup t j b Hj Hb). simpl. lia.
  - injection Hj as ->. rewrite Hb. pose proof (bgs_lookup t i a Hi Ha). simpl. lia.
  - assert (Hne : i <> j) by congruence. specialize (IH i j Hne Hi Hj Ha Hb). lia.
Qed.

Lemma bgs_le_1 w : Inv w -> bgs (threads w) <= 1.
Proof.
  intros HI. pose proof (inv_bg _ HI). pose proof (inv_flag _ HI).
  unfold won in *. lia.
Qed.

Lemma trace_at_other pc p : is_bg pc = false -> trace_at pc p.
Proof. destruct pc; simpl; try discriminate; auto. Qed.

Lemma trace_at_same pc p p' :
  trace p' = trace p -> waitErr p' = waitErr p -> trace_at pc p -> trace_at pc p'.
Proof.
  intros Ht He. unfold trace_at. rewrite Ht, He. auto.
Qed.

(** A transition either is one of the goroutine of Start or leaves the
    trace and waitErr alone. *)
Lemma step_trace pc o p pc' p' forked :
  step_pc pc o p = Some (pc', p', forked) ->
  (trace p' = trace p /\ waitErr p' = waitErr p) \/ is_bg pc = true.
Proof.
  intros Hs. destruct p as [isR mx we cp gw cn [bf cp' cl hs] once chld tr].
  destruct pc; try (right; reflexivity); left; split_step Hs; auto.
Qed.

Lemma step_fork pc o p pc' p' forked x :
  step_pc pc o p = Some (pc', p', forked) -> x ∈ forked ->
  pc = Start_go /\ x = Bg_recv /\ p' = p.
Proof.
  intros Hs Hx. destruct p as [isR mx we cp gw cn [bf cp' cl hs] once chld tr].
  destruct pc; split_step Hs; try (apply elem_of_nil in Hx; contradiction).
  apply list_elem_of_singleton in Hx. auto.
Qed.

Lemma step_not_bg pc o p pc' p' forked :
  step_pc pc o p = Some (pc', p', forked) -> is_bg pc = false -> is_bg pc' = false.
Proof.
  intros Hs Hb. destruct p as [isR mx we cp gw cn [bf cp' cl hs] once chld tr].
  destruct pc; try discriminate; split_step Hs; reflexivity.
Qed.

(** The goroutine's own transition extends the trace by its action. *)
Lemma step_trace_own pc o p pc' p' forked :
  step_pc pc o p = Some (pc', p', forked) ->
  trace_at pc p -> is_bg pc = true -> trace_at pc' p' \/ exists f, pc' = Fault f.
Proof.
  intros Hs Ht Hb. destruct p as [isR mx we cp gw cn [bf cp' cl hs] once chld tr].
  destruct pc; try discriminate; split_step Hs; simpl in *;
    try (right; eexists; reflexivity); left;
    try match type of Ht with
        | ex _ => let b := fresh "b" in destruct Ht as [b Ht]
        end;
    subst; simpl; auto;
    first [ reflexivity | exists false; reflexivity | eexists; reflexivity ].
Qed.

Lemma TraceInv_exec ev w w' :
  Inv w -> TraceInv w -> exec ev w = Some w' -> TraceInv w'.
Proof.
  intros HI HT Hex. pose proof (Inv_exec _ _ _ HI Hex) as HI'.
  destruct w as [p t]. destruct ev as [i o | st]; simpl in Hex.
  - destruct (t !! i) as [pc|] eqn:Hi; [|discriminate].
    destruct (step_pc pc o p) as [[[pc' p'] forked]|] eqn:Hs; [|discriminate].
    injection Hex as <-. intros j x Hj. simpl in *.
    destruct (lookup_moved t i pc pc' forked j x Hi Hj)
      as [[-> ->] | [[Hne Hold] | [_ Hf]]].
    + destruct (is_bg pc) eqn:Hb.
      * destruct (step_trace_own _ _ _ _ _ _ Hs (HT i pc Hi) Hb) as [?|[f ->]]; auto.
        exfalso. pose proof (cnt_lookup KFault _ _ _ Hj eq_refl).
        pose proof (inv_fault _ HI'). simpl in *. lia.
      * apply trace_at_other. eapply step_not_bg; eauto.
    + destruct (step_trace _ _ _ _ _ _ Hs) as [[Et Ee]|Hb].
      * eapply trace_at_same; [exact Et | exact Ee | exact (HT j x Hold)].
      * destruct (is_bg x) eqn:Hx; [|apply trace_at_other; auto].
        exfalso. assert (Hij : i <> j) by congruence.
        pose proof (bgs_two t i j pc x Hij Hi Hold Hb Hx).
        pose proof (bgs_le_1 _ HI). simpl in *. lia.
    + assert (Hx : x ∈ forked) by (eapply list_elem_of_lookup_2; eauto).
      destruct (step_fork _ _ _ _ _ _ _ Hs Hx) as (-> & -> & ->).
      simpl. apply (inv_trace0 _ HI). simpl.
      pose proof (cnt_lookup KStartGo _ _ _ Hi eq_refl).
      pose proof (inv_bg _ HI). pose proof (inv_flag _ HI).
      unfold won in *. simpl in *. lia.
  - destruct (child p) eqn:Hc; try discriminate. injection Hex as <-.
    intros j x Hj. simpl in *. eapply trace_at_same; [| |apply (HT j x Hj)];
      reflexivity.
Qed.


Lemma TraceInv_init calls : valid calls -> TraceInv (init calls).
Proof.
  intros Hv j pc Hj. apply trace_at_other.
  unfold valid in Hv. rewrite Forall_forall in Hv.
  assert (Hin : pc ∈ calls) by (eapply list_elem_of_lookup_2; eauto).
  specialize (Hv pc Hin). destruct pc; try discriminate; reflexivity.
Qed.




Lemma parked_exec ev w w' : parked w -> exec ev w = Some w' -> parked w'.
Proof.
  intros (s & v & Ht & Hs & Hv & HR & HM & HP & HB & HC & HO & HT) Hex.
  destruct w as [p t]. simpl in *. subst t.
  destruct p as [isR mx we cp gw cn [bf cp' cl hs] once chld tr].
  simpl in *. subst.
  destruct ev as [i o | st]; simpl in Hex.
  - destruct i as [|[|[|[|i]]]].
    + discriminate.
    + destruct s; try contradiction;
        try match goal with
            | r : option error |- _ => destruct r as [[| |m]|]; try contradiction
            end;
        cbv in Hex; try destruct o; try discriminate; injection Hex as <-;
        eexists _, v; simpl; repeat split; auto.
    + destruct v; try contradiction; cbv in Hex; try discriminate;
        injection Hex as <-; eexists s, _; simpl; repeat split; auto.
    + discriminate.
    + discriminate.
  - destruct chld; try discriminate. injection Hex as <-.
    exists s, v. simpl. repeat split; auto.
Qed.

Lemma parked_run sched w : parked w -> parked (run sched w).
Proof.
  revert w. induction sched as [|ev sched IH]; intros w H; simpl; [exact H|].
  apply IH. unfold apply. destruct (exec ev w) eqn:E; [|exact H].
  eapply parked_exec; eauto.
Qed.

Lemma parked_start : parked started_unconnected.
Proof.
  exists Stop_load, Wait_load. vm_compute. repeat split; auto.
Qed.

(** C1: what the code does.  After a successful Start and without any
    InjectConn, whatever the schedule and whenever the child exits:
    Stop never returns nil, Wait never returns, connCh is never closed,
    the goroutine of Start stays at its receive holding waitMx and never
    kills the child.  And once Stop has signalled the child and reached
    waitMx.Lock, Wait has reached it too and the child has exited, no
    goroutine can move any more. *)
Theorem C1_stop_deadlock (sched : list Event) :
  threads (run sched started_unconnected) !! 1 <> Some (Stop_ret None)
  /\ (forall r, threads (run sched started_unconnected) !! 2 <> Some (Wait_ret r))
  /\ threads (run sched started_unconnected) !! 3 = Some Bg_recv
  /\ closed (connCh (proc (run sched started_unconnected))) = false
  /\ waitMx (proc (run sched started_unconnected)) = true
  /\ trace (proc (run sched started_unconnected)) = []
  /\ (forall ev,
        exec ev (run [Run 1 None; Run 1 None; Run 2 None;
                      ChildExit (Some "signal: interrupt"%string)]
                     started_unconnected) = None).
Proof.
  destruct (parked_run sched _ parked_start)
    as (s & v & Ht & Hs & Hv & HR & HM & HP & HB & HC & HO & HT).
  rewrite Ht. simpl.
  repeat split; auto.
  - intros E. injection E as ->. exact Hs.
  - intros r E. injection E as ->. exact Hv.
  - intros [i o | st]; [|reflexivity].
    destruct i as [|[|[|[|i]]]]; reflexivity.
Qed.







(** One transition of goroutine [i] that forks nothing. *)
Lemma apply_at w i o pc pc' p' :
  threads w !! i = Some pc ->
  step_pc pc o (proc w) = Some (pc', p', []) ->
  apply (Run i o) w = {| proc := p'; threads := <[i := pc']> (threads w) |}.
Proof.
  intros Hi Hs. unfold apply, exec. rewrite Hi, Hs, app_nil_r. reflexivity.
Qed.




(** ** The life of the child process *)

Lemma child_le_refl c : child_le c c.
Proof. destruct c; simpl; auto. Qed.

Lemma child_le_trans a b c : child_le a b -> child_le b c -> child_le a c.
Proof. destruct a, b, c; simpl; intros; try contradiction; auto; congruence. Qed.

(** The goroutines of kind [k] that the counters see are there. *)
Lemma cnt_pos_lookup k (t : list Pc) :
  0 < cnt k t -> exists j pc, t !! j = Some pc /\ kind pc = k.
Proof.
  induction t as [|x t IH]; simpl; [lia|]. intros Hpos.
  unfold ind in Hpos. destruct (Kind_beq (kind x) k) eqn:E.
  - exists 0, x. split; [reflexivity|]. apply internal_Kind_dec_bl, E.
  - destruct IH as (j & pc & Hj & Hk); [simpl in Hpos; lia|].
    exists (S j), pc. auto.
Qed.

(** The program points of a kind: [Hk : kind pc = k]. *)
Ltac kind_cases Hk :=
  match type of Hk with
  | kind ?pc = _ =>
      destruct pc; simpl in Hk; try discriminate Hk;
      repeat match type of Hk with
             | context [match ?r with _ => _ end] => destruct r
             end;
      try discriminate Hk
  end.

Lemma ChildInv_exec ev w w' :
  Inv w -> ChildInv w -> exec ev w = Some w' ->
  ChildInv w' /\ child_le (child (proc w)) (child (proc w')).
Proof.
  intros HI [Hnone Hsome Hkill] Hex.
  pose proof (inv_fault _ (Inv_exec _ _ _ HI Hex)) as HF'.
  pose proof (inv_flag _ HI) as Hflag. pose proof (inv_bg _ HI) as Hbg.
  pose proof (inv_trace0 _ HI) as Htr0.
  destruct w as [p t]. destruct ev as [i o | st]; simpl in Hex.
  - destruct (t !! i) as [pc|] eqn:Hi; [|discriminate].
    destruct (step_pc pc o p) as [[[pc' p'] forked]|] eqn:Hs; [|discriminate].
    injection Hex as <-.
    pose proof (fun k => cnt_moved k t i pc pc' forked Hi) as Hc.
    pose proof (cnt_lookup _ t i pc Hi eq_refl) as Hme.
    destruct p as [isR mx we cp gw cn [bf cp' cl hs] once chld tr].
    simpl in *.
    remember (<[i := pc']> t ++ forked) as t' eqn:Et'. clear Et'.
    pose proof (Hc KFault) as EF.
    destruct pc; simpl in Hme; split_step Hs; unfold ind in EF; simpl in EF;
      try (exfalso; lia); clear EF HF';
      (split; [constructor|]); simpl; try apply child_le_refl;
      unfold_phases; simpl; counters Hc t t'; clear Hc;
      try rewrite in_app_iff; simpl;
      try (intros; first [ apply Hnone; lia | apply Hsome; lia
                         | apply Hkill; tauto | discriminate | exfalso; lia ]).
    all: try (intros [Hin|[Hin|[]]]; [apply Hkill; exact Hin | discriminate Hin]).
    all: try reflexivity.
    + intros Hin. rewrite Htr0 in Hin by lia. destruct Hin.
    + rewrite Hnone by lia. exact I.
    + intros Hpos. specialize (Hsome Hpos). destruct chld; simpl; congruence.
    + intros _. assert (Hs' : chld <> NoChild) by (apply Hsome; lia).
      destruct chld; simpl; eauto. congruence.
    + destruct chld; simpl; auto.
  - destruct (child p) eqn:Hch; try discriminate. injection Hex as <-.
    destruct p as [isR mx we cp gw cn [bf cp' cl hs] once chld tr].
    simpl in *. subst chld. split; [constructor|]; simpl; eauto; try discriminate.
    intros H. specialize (Hnone H). discriminate.
Qed.

Lemma ChildInv_init calls : valid calls -> ChildInv (init calls).
Proof.
  intros Hv. pose proof (fun k => cnt_calls k calls Hv) as Hz.
  constructor; simpl; unfold_phases.
  - reflexivity.
  - pose proof (Hz KStartGo). pose proof (Hz KBgRecv). pose proof (Hz KBgAbnHold).
    pose proof (Hz KBgAbnEnd). pose proof (Hz KBgPreWait).
    pose proof (Hz KBgPostWait). pose proof (Hz KBgFree). simpl in *. lia.
  - contradiction.
Qed.

Lemma ChildInv_run sched w :
  Inv w -> ChildInv w ->
  ChildInv (run sched w) /\ child_le (child (proc w)) (child (proc (run sched w))).
Proof.
  revert w. induction sched as [|ev sched IH]; intros w HI HC; simpl.
  - split; [exact HC | apply child_le_refl].
  - unfold apply. destruct (exec ev w) as [w'|] eqn:E; [|apply IH; auto].
    destruct (ChildInv_exec _ _ _ HI HC E) as [HC' Hle].
    destruct (IH w' (Inv_exec _ _ _ HI E) HC') as [HC'' Hle'].
    split; [exact HC''|]. eapply child_le_trans; eauto.
Qed.

Lemma child_exited_exec ev w w' st :
  Inv w -> ChildInv w -> exec ev w = Some w' ->
  child (proc w) = Exited st -> child (proc w') = Exited st.
Proof.
  intros HI HC Hex Hc.
  destruct (ChildInv_exec _ _ _ HI HC Hex) as [_ Hle].
  rewrite Hc in Hle. destruct (child (proc w')); simpl in Hle; try contradiction.
  congruence.
Qed.

(** ** What Wait returns *)

(** The goroutine that has recorded the exit stays behind cmd.Wait. *)
Lemma recorded_exec ev w w' :
  Inv w -> exec ev w = Some w' ->
  0 < cnt KBgPostWait (threads w) + cnt KBgFree (threads w) ->
  0 < cnt KBgPostWait (threads w') + cnt KBgFree (threads w').
Proof.
  intros HI Hex Hpos.
  pose proof (inv_fault _ (Inv_exec _ _ _ HI Hex)) as HF'.
  destruct w as [p t]. destruct ev as [i o | st]; simpl in Hex.
  - destruct (t !! i) as [pc|] eqn:Hi; [|discriminate].
    destruct (step_pc pc o p) as [[[pc' p'] forked]|] eqn:Hs; [|discriminate].
    injection Hex as <-. simpl in *.
    pose proof (fun k => cnt_moved k t i pc pc' forked Hi) as Hc.
    remember (<[i := pc']> t ++ forked) as t' eqn:Et'. clear Et'.
    pose proof (Hc KFault) as EF.
    destruct p as [isR mx we cp gw cn [bf cp' cl hs] once chld tr].
    destruct pc; split_step Hs; unfold ind in EF; simpl in EF;
      try (exfalso; lia); counters Hc t t'; lia.
  - destruct (child p); try discriminate. injection Hex as <-. exact Hpos.
Qed.

Lemma wait_result_exec ev w w' r :
  Inv w -> ChildInv w -> exec ev w = Some w' ->
  wait_result r w -> wait_result r w'.
Proof.
  intros HI HC Hex [H|[H|[Hpos Hc]]]; [left; auto | right; left; auto|].
  right; right. split; [eapply recorded_exec; eauto|].
  eapply child_exited_exec; eauto.
Qed.

Lemma WaitInv_exec ev w w' :
  Inv w -> ChildInv w -> WaitInv w -> exec ev w = Some w' -> WaitInv w'.
Proof.
  intros HI HC HW Hex k r Hr.
  pose proof (fun r => wait_result_exec ev w w' r HI HC Hex) as Hkeep.
  pose proof (inv_exit _ HI) as Hexit. pose proof (inv_noexit _ HI) as Hnoexit.
  destruct w as [p t]. destruct ev as [i o | s]; simpl in Hex.
  - destruct (t !! i) as [pc|] eqn:Hi; [|discriminate].
    destruct (step_pc pc o p) as [[[pc' p'] forked]|] eqn:Hs; [|discriminate].
    injection Hex as <-. simpl in *.
    assert (Hcase : exists x, (<[i:=pc']> t ++ forked) !! k = Some x
                              /\ (x = Wait_unlock r \/ x = Wait_ret r)).
    { destruct Hr as [Hr|Hr]; eexists; split; eauto. }
    destruct Hcase as (x & Hk & Hx).
    destruct (lookup_moved t i pc pc' forked k x Hi Hk)
      as [[-> ->] | [[Hne Hold] | [_ Hf]]].
    + assert (Hown : forall r0, pc = Wait_unlock r0 ->
                wait_result r0 {| proc := p; threads := t |}).
      { intros r0 ->. apply (HW i r0). left. exact Hi. }
      destruct p as [isR mx we cp gw cn [bf cp' cl hs] once chld tr].
      simpl in *.
      destruct pc; split_step Hs; simpl;
        destruct Hx as [Hx|Hx]; try discriminate; try injection Hx as <-.
      * left. reflexivity.
      * destruct (cnt KBgPostWait t + cnt KBgFree t) eqn:E.
        -- apply Hkeep. right; left. apply Hnoexit. reflexivity.
        -- apply Hkeep. right; right. simpl. split; [lia|]. apply Hexit. lia.
      * apply Hkeep. apply (Hown _ eq_refl).
    + apply Hkeep. apply (HW k r). destruct Hx as [->| ->]; [left|right]; exact Hold.
    + assert (Hin : x ∈ forked) by (eapply list_elem_of_lookup_2; eauto).
      destruct (step_fork _ _ _ _ _ _ _ Hs Hin) as (_ & -> & _).
      destruct Hx; discriminate.
  - apply (Hkeep r). apply (HW k r). destruct (child p); try discriminate.
    injection Hex as <-. exact Hr.
Qed.

Lemma WaitInv_init calls : valid calls -> WaitInv (init calls).
Proof.
  intros Hv k r Hr. unfold valid in Hv. rewrite Forall_forall in Hv.
  destruct Hr as [Hr|Hr];
    (assert (Hin : _ ∈ calls) by (eapply list_elem_of_lookup_2; exact Hr));
    specialize (Hv _ Hin); discriminate.
Qed.

(** ** Stop and the exit of the child *)





(** ** connOnce, once done *)

Lemma once_done_exec ev w w' :
  exec ev w = Some w' -> connOnce (proc w) = OnceDone ->
  connOnce (proc w') = OnceDone.
Proof.
  intros Hex Hd. destruct w as [p t]. destruct ev as [i o | s]; simpl in Hex.
  - destruct (t !! i) as [pc|] eqn:Hi; [|discriminate].
    destruct (step_pc pc o p) as [[[pc' p'] forked]|] eqn:Hs; [|discriminate].
    injection Hex as <-. simpl in *.
    destruct p as [isR mx we cp gw cn [bf cp' cl hs] once chld tr].
    simpl in *. subst once.
    destruct pc; split_step Hs; reflexivity.
  - destruct (child p); try discriminate. injection Hex as <-. exact Hd.
Qed.

Lemma StopInv_exec ev w w' : StopInv w -> exec ev w = Some w' -> StopInv w'.
Proof.
  intros HS Hex k Hk.
  pose proof (once_done_exec ev w w' Hex) as Hkeep.
  destruct w as [p t]. destruct ev as [i o | s]; simpl in Hex.
  - destruct (t !! i) as [pc|] eqn:Hi; [|discriminate].
    destruct (step_pc pc o p) as [[[pc' p'] forked]|] eqn:Hs; [|discriminate].
    injection Hex as <-. simpl in *.
    destruct (lookup_moved t i pc pc' forked k _ Hi Hk)
      as [[-> Hx] | [[Hne Hold] | [_ Hf]]].
    + destruct p as [isR mx we cp gw cn [bf cp' cl hs] once chld tr].
      simpl in *.
      destruct pc; split_step Hs; try discriminate Hx; reflexivity.
    + apply Hkeep. exact (HS k Hold).
    + assert (Hin : Stop_ret None ∈ forked) by (eapply list_elem_of_lookup_2; eauto).
      destruct (step_fork _ _ _ _ _ _ _ Hs Hin) as (_ & Hx & _). discriminate.
  - apply Hkeep. destruct (child p); try discriminate.
    injection Hex as <-. exact (HS k Hk).
Qed.

Lemma StopInv_init calls : valid calls -> StopInv (init calls).
Proof.
  intros Hv k Hr. unfold valid in Hv. rewrite Forall_forall in Hv.
  assert (Hin : Stop_ret None ∈ calls) by (eapply list_elem_of_lookup_2; exact Hr).
  specialize (Hv _ Hin). discriminate.
Qed.

Lemma ConnInv_exec ev w w' :
  Inv w -> ConnInv w -> exec ev w = Some w' -> ConnInv w'.
Proof.
  intros HI [Hcn Hgw] Hex.
  pose proof (inv_fault _ (Inv_exec _ _ _ HI Hex)) as HF'.
  destruct w as [p t]. destruct ev as [i o | st]; simpl in Hex.
  - destruct (t !! i) as [pc|] eqn:Hi; [|discriminate].
    destruct (step_pc pc o p) as [[[pc' p'] forked]|] eqn:Hs; [|discriminate].
    injection Hex as <-.
    pose proof (fun k => cnt_moved k t i pc pc' forked Hi) as Hc.
    pose proof (cnt_lookup _ t i pc Hi eq_refl) as Hme.
    destruct p as [isR mx we cp gw cn [bf cp' cl hs] once chld tr].
    simpl in *.
    remember (<[i := pc']> t ++ forked) as t' eqn:Et'. clear Et'.
    pose proof (Hc KFault) as EF.
    destruct pc; simpl in Hme; split_step Hs; unfold ind in EF; simpl in EF;
      try (exfalso; lia); clear EF HF';
      constructor; simpl; unfold_phases; counters Hc t t'; clear Hc;
      intros; first [ apply Hcn; lia | apply Hgw; lia | exfalso; lia ].
  - destruct (child p) eqn:Hch; try discriminate. injection Hex as <-.
    constructor; simpl; auto.
Qed.

Lemma ConnInv_init calls : ConnInv (init calls).
Proof. constructor; reflexivity. Qed.

(** Once connOnce is done nobody touches connCh, the connection or the
    gateway. *)
Lemma done_exec ev w w' :
  Inv w -> exec ev w = Some w' -> connOnce (proc w) = OnceDone ->
  hist (connCh (proc w')) = hist (connCh (proc w))
  /\ conn (proc w') = conn (proc w) /\ rpcGW (proc w') = rpcGW (proc w).
Proof.
  intros HI Hex Hd. pose proof (inv_once _ HI) as Honce. rewrite Hd in Honce.
  destruct Honce as (Hin & _ & _). unfold in_once in Hin.
  destruct w as [p t]. destruct ev as [i o | s]; simpl in Hex.
  - destruct (t !! i) as [pc|] eqn:Hi; [|discriminate].
    destruct (step_pc pc o p) as [[[pc' p'] forked]|] eqn:Hs; [|discriminate].
    injection Hex as <-. simpl in *.
    pose proof (cnt_lookup _ t i pc Hi eq_refl) as Hme.
    destruct p as [isR mx we cp gw cn [bf cp' cl hs] once chld tr].
    simpl in *.
    destruct pc; simpl in Hme; split_step Hs; simpl; auto; exfalso; lia.
  - destruct (child p); try discriminate. injection Hex as <-. auto.
Qed.

(** ** All the invariants, on every schedule *)

Lemma Sound_init calls : valid calls -> Sound (init calls).
Proof.
  intros Hv. constructor.
  - apply Inv_init, Hv.
  - apply ChildInv_init, Hv.
  - apply TraceInv_init, Hv.
  - apply WaitInv_init, Hv.
  - apply ConnInv_init.
  - apply StopInv_init, Hv.
Qed.

Lemma Sound_exec ev w w' : Sound w -> exec ev w = Some w' -> Sound w'.
Proof.
  intros [HI HC HT HW HN HS] Hex. constructor.
  - eapply Inv_exec; eauto.
  - eapply ChildInv_exec; eauto.
  - eapply TraceInv_exec; eauto.
  - eapply WaitInv_exec; eauto.
  - eapply ConnInv_exec; eauto.
  - eapply StopInv_exec; eauto.
Qed.

Lemma Sound_run sched w : Sound w -> Sound (run sched w).
Proof.
  revert w. induction sched as [|ev sched IH]; intros w H; simpl; [exact H|].
  apply IH. unfold apply. destruct (exec ev w) eqn:E; [|exact H].
  eapply Sound_exec; eauto.
Qed.

Lemma Sound_reachable calls sched : valid calls -> Sound (run sched (init calls)).
Proof. intros Hv. apply Sound_run, Sound_init, Hv. Qed.

(** A property kept by every transition is kept by every schedule. *)
Lemma run_keeps (P : World -> Prop) :
  (forall ev w w', Sound w -> P w -> exec ev w = Some w' -> P w') ->
  forall sched w, Sound w -> P w -> P (run sched w).
Proof.
  intros Hstep sched. induction sched as [|ev sched IH]; intros w HS HP; simpl;
    [exact HP|].
  unfold apply. destruct (exec ev w) as [w'|] eqn:E; [|apply IH; auto].
  apply IH; [eapply Sound_exec | eapply Hstep]; eauto.
Qed.

(** ** Phases as sets of program points *)

Lemma counts_holders : counts holds_lock holders.
Proof.
  intros t. induction t as [|pc t IH]; [reflexivity|].
  rewrite filter_cons. unfold holders in *. simpl cnt.
  destruct pc; try destruct r as [[]|]; try destruct ok; simpl; unfold ind; simpl; lia.
Qed.

Lemma counts_in_once : counts runs_once in_once.
Proof.
  intros t. induction t as [|pc t IH]; [reflexivity|].
  rewrite filter_cons. unfold in_once in *. simpl cnt.
  destruct pc; try destruct r as [[]|]; try destruct ok; simpl; unfold ind; simpl; lia.
Qed.

Lemma counts_bgs : counts is_bg bgs.
Proof.
  intros t. induction t as [|pc t IH]; [reflexivity|].
  rewrite filter_cons. unfold bgs in *. simpl cnt.
  destruct pc; try destruct r as [[]|]; try destruct ok; simpl; unfold ind; simpl; lia.
Qed.



Lemma filter_lookup_len (f : Pc -> bool) (t : list Pc) i a :
  t !! i = Some a -> f a = true ->
  1 <= length (filter (fun pc => f pc = true) t).
Proof.
  revert i. induction t as [|x t IH]; intros [|i] Hi Ha; simpl in Hi; try discriminate.
  - injection Hi as ->. rewrite filter_cons. rewrite decide_True by exact Ha. simpl. lia.
  - specialize (IH i Hi Ha). rewrite filter_cons.
    destruct (decide (f x = true)); simpl; lia.
Qed.

Lemma counts_lookup f g (t : list Pc) i a :
  counts f g -> t !! i = Some a -> f a = true -> 1 <= g t.
Proof. intros Hc Hi Ha. rewrite Hc. eapply filter_lookup_len; eauto. Qed.

Lemma counts_two f g (t : list Pc) i j a b :
  counts f g -> i <> j -> t !! i = Some a -> t !! j = Some b ->
  f a = true -> f b = true -> 2 <= g t.
Proof.
  intros Hc Hij Hi Hj Ha Hb. rewrite Hc. clear Hc. revert i j Hij Hi Hj.
  induction t as [|x t IH]; intros [|i] [|j] Hij Hi Hj; simpl in Hi, Hj;
    try discriminate; try congruence; rewrite filter_cons.
  - injection Hi as ->. rewrite decide_True by exact Ha.
    pose proof (filter_lookup_len f t j b Hj Hb). simpl. lia.
  - injection Hj as ->. rewrite decide_True by exact Hb.
    pose proof (filter_lookup_len f t i a Hi Ha). simpl. lia.
  - assert (Hne : i <> j) by congruence. specialize (IH i j Hne Hi Hj).
    destruct (decide (f x = true)); simpl; lia.
Qed.

Lemma counts_pos f g (t : list Pc) :
  counts f g -> 0 < g t -> exists j pc, t !! j = Some pc /\ f pc = true.
Proof.
  intros Hc. rewrite Hc. clear Hc.
  induction t as [|x t IH]; simpl; [lia|]. rewrite filter_cons.
  destruct (decide (f x = true)) as [Hx|Hx]; simpl.
  - intros _. exists 0, x. auto.
  - intros Hpos. destruct (IH Hpos) as (j & pc & Hj & Hpc). exists (S j), pc. auto.
Qed.

(** ** Who holds waitMx *)

(** X1.  Whatever calls are made on a fresh supervisor and however they
    interleave, waitMx is held by at most one goroutine at a time, the
    call of Start and the goroutine it launches counting as one holder
    (the goroutine inherits the lock that Start took and releases it);
    and waitMx is locked exactly when some goroutine is between a Lock
    and the matching Unlock. *)
Theorem X1_lock_exclusive (calls : list Pc) (sched : list Event) :
  valid calls ->
  let w := run sched (init calls) in
  (forall i j a b, i <> j ->
     threads w !! i = Some a -> threads w !! j = Some b ->
     holds_lock a = true -> holds_lock b = false)
  /\ (waitMx (proc w) = true <->
      exists i a, threads w !! i = Some a /\ holds_lock a = true).
Proof.
  intros Hv w.
  assert (HI : Inv w) by (apply Inv_run, Inv_init, Hv).
  pose proof (inv_mutex _ HI) as Hmx.
  assert (Hle : holders (threads w) <= 1)
    by (destruct (waitMx (proc w)); simpl in Hmx; lia).
  split; [|split].
  - intros i j a b Hij Hi Hj Ha. destruct (holds_lock b) eqn:Hb; [|reflexivity].
    pose proof (counts_two _ _ _ _ _ _ _ counts_holders Hij Hi Hj Ha Hb). lia.
  - intros Hm. rewrite Hm in Hmx. apply (counts_pos _ _ _ counts_holders).
    simpl in Hmx. lia.
  - intros (i & a & Hi & Ha).
    pose proof (counts_lookup _ _ _ _ _ counts_holders Hi Ha).
    destruct (waitMx (proc w)); [reflexivity | simpl in Hmx; lia].
Qed.

Lemma X1_lock_exclusive_witness :
  waitMx (proc (run [Run 0 None; Run 1 None; Run 0 None] (init [Start_cas; Wait_load])))
  = true
  <-> exists i a,
        threads (run [Run 0 None; Run 1 None; Run 0 None] (init [Start_cas; Wait_load]))
          !! i = Some a
        /\ holds_lock a = true.
Proof.
  refine (proj2 (X1_lock_exclusive [Start_cas; Wait_load]
                   [Run 0 None; Run 1 None; Run 0 None] _)).
  repeat constructor.
Defined.

(** ** The life of the child process *)

(** X2.  Whatever calls are made and however they interleave, the child
    goes from not spawned to alive to exited and never back: it is
    spawned at most once and, once it has exited, its exit status never
    changes.  There is a child (and a process handle) as soon as Start
    is behind cmd.Start or its goroutine exists, and there is none as
    long as no goroutine is at such a point. *)
Theorem X2_child_lifecycle (calls : list Pc) (sched sched' : list Event) :
  valid calls ->
  let w := run sched (init calls) in
  child_le (child (proc w)) (child (proc (run sched' w)))
  /\ (forall i pc, threads w !! i = Some pc ->
        pc = Start_go \/ is_bg pc = true ->
        child (proc w) <> NoChild /\ cmdProcess (proc w) = true)
  /\ ((forall i pc, threads w !! i = Some pc -> pc <> Start_go /\ is_bg pc = false) ->
      child (proc w) = NoChild).
Proof.
  intros Hv w.
  destruct (Sound_reachable calls sched Hv) as [HI HC _ _ _ _]. fold w in HI, HC.
  split; [apply ChildInv_run; auto|]. split.
  - intros i pc Hi Hpc.
    assert (Hpos : 0 < cnt KStartGo (threads w) + bgs (threads w)).
    { destruct Hpc as [->|Hb].
      + pose proof (cnt_lookup KStartGo _ _ _ Hi eq_refl). lia.
      + pose proof (bgs_lookup _ _ _ Hi Hb). lia. }
    split; [apply (ci_some _ HC Hpos) | apply (inv_process _ HI Hpos)].
  - intros Hno. apply (ci_none _ HC).
    destruct (cnt KStartGo (threads w)) eqn:E1.
    + destruct (bgs (threads w)) eqn:E2; [reflexivity|]. exfalso.
      destruct (counts_pos _ _ (threads w) counts_bgs) as (j & pc & Hj & Hb); [lia|].
      destruct (Hno j pc Hj) as [_ Hb']. congruence.
    + exfalso.
      destruct (cnt_pos_lookup KStartGo (threads w)) as (j & pc & Hj & Hkind); [lia|].
      destruct (Hno j pc Hj) as [Hne _]. apply Hne. kind_cases Hkind. reflexivity.
Qed.

Lemma X2_child_lifecycle_witness :
  child (proc (run served_run (init [Start_cas; Inject_do 1; Wait_load]))) <> NoChild
  /\ cmdProcess (proc (run served_run (init [Start_cas; Inject_do 1; Wait_load]))) = true.
Proof.
  refine (proj1 (proj2 (X2_child_lifecycle [Start_cas; Inject_do 1; Wait_load]
                          served_run [] _)) 3 Bg_disc_stop _ _).
  - repeat constructor.
  - reflexivity.
  - right. reflexivity.
Defined.

(** ** What Wait returns *)

(** X3.  Whatever calls are made and however they interleave, a call of
    Wait that has returned has returned errProcNotStarted, nil, or the
    exit status of the child; in the last case the child has exited
    with that status, waitErr holds it, and the goroutine of Start is
    behind cmd.Wait.  Wait never returns errProcAlreadyRunning nor the
    error of a signal or of a spawn. *)
Theorem X3_wait_results (calls : list Pc) (sched : list Event) :
  valid calls ->
  let w := run sched (init calls) in
  forall k r, threads w !! k = Some (Wait_ret r) ->
    r = Some errProcNotStarted \/ r = None
    \/ (child (proc w) = Exited r /\ waitErr (proc w) = r
        /\ exists j pc, threads w !! j = Some pc /\ is_served pc = true
                        /\ pc <> Bg_serve /\ pc <> Bg_disc_start /\ pc <> Bg_cmd_wait).
Proof.
  intros Hv w k r Hk.
  destruct (Sound_reachable calls sched Hv) as [HI HC _ HW _ _]. fold w in HI, HC, HW.
  destruct (HW k r (or_intror Hk)) as [H|[H|[Hpos Hc]]]; [left; auto | right; left; auto|].
  right; right. split; [exact Hc|]. split.
  - pose proof (inv_exit _ HI Hpos) as He. congruence.
  - assert (Hex : exists kd, 0 < cnt kd (threads w) /\ (kd = KBgPostWait \/ kd = KBgFree)).
    { destruct (cnt KBgPostWait (threads w)) eqn:?; [|exists KBgPostWait; split; [lia|tauto]].
      exists KBgFree. split; [lia|tauto]. }
    destruct Hex as (kd & Hkd & Hcase).
    destruct (cnt_pos_lookup kd _ Hkd) as (j & pc & Hj & Hkind). exists j, pc.
    split; [exact Hj|].
    destruct Hcase as [-> | ->]; kind_cases Hkind; split_and!;
      first [ reflexivity | discriminate ].
Qed.

Lemma X3_wait_results_witness :
  @None error = Some errProcNotStarted \/ @None error = None
  \/ (child (proc (run (served_run ++ [Run 2 None; Run 2 None; Run 2 None; Run 2 None])
                       (init [Start_cas; Inject_do 1; Wait_load]))) = Exited None
      /\ waitErr (proc (run (served_run ++ [Run 2 None; Run 2 None; Run 2 None; Run 2 None])
                            (init [Start_cas; Inject_do 1; Wait_load]))) = None
      /\ exists j pc,
           threads (run (served_run ++ [Run 2 None; Run 2 None; Run 2 None; Run 2 None])
                        (init [Start_cas; Inject_do 1; Wait_load])) !! j = Some pc
           /\ is_served pc = true
           /\ pc <> Bg_serve /\ pc <> Bg_disc_start /\ pc <> Bg_cmd_wait).
Proof.
  refine (X3_wait_results [Start_cas; Inject_do 1; Wait_load]
            (served_run ++ [Run 2 None; Run 2 None; Run 2 None; Run 2 None]) _
            2 None _).
  - repeat constructor.
  - reflexivity.
Defined.

(** ** Stop and the exit of the child *)



(** ** The two paths of the goroutine of Start *)




(** ** InjectConn after Stop *)

(** X6.  Once a call of Stop has returned nil, connOnce is done and
    connCh is closed for ever, connCh, the stored connection and the
    gateway never change again, and every InjectConn made from then on
    returns false in one transition that leaves the shared structure as
    it was.  If it was Stop that closed connCh (no send came before),
    the supervisor never gets a connection: conn stays nil and no
    InjectConn ever returns true. *)
Theorem X6_inject_after_stop (calls : list Pc) (sched sched' : list Event) (i : nat) :
  valid calls ->
  threads (run sched (init calls)) !! i = Some (Stop_ret None) ->
  let w := run sched (init calls) in
  let w' := run sched' w in
  connOnce (proc w') = OnceDone
  /\ closed (connCh (proc w')) = true
  /\ hist (connCh (proc w')) = hist (connCh (proc w))
  /\ conn (proc w') = conn (proc w)
  /\ rpcGW (proc w') = rpcGW (proc w)
  /\ (forall j c o, threads w' !! j = Some (Inject_do c) ->
        exec (Run j o) w' = Some (moved w' j (Inject_ret false)))
  /\ (hist (connCh (proc w)) = [ChClose] ->
      conn (proc w') = None
      /\ forall j, threads w' !! j <> Some (Inject_ret true)).
Proof.
  intros Hv Hi w w'.
  pose proof (Sound_reachable calls sched Hv) as HS. fold w in HS.
  assert (Hd : connOnce (proc w) = OnceDone) by (apply (s_stop _ HS i), Hi).
  assert (H' : connOnce (proc w') = OnceDone
               /\ hist (connCh (proc w')) = hist (connCh (proc w))
               /\ conn (proc w') = conn (proc w)
               /\ rpcGW (proc w') = rpcGW (proc w)).
  { apply (run_keeps (fun w1 => connOnce (proc w1) = OnceDone
                                /\ hist (connCh (proc w1)) = hist (connCh (proc w))
                                /\ conn (proc w1) = conn (proc w)
                                /\ rpcGW (proc w1) = rpcGW (proc w))); auto.
    intros ev w1 w2 HS1 (H1 & H2 & H3 & H4) Hex.
    destruct (done_exec ev w1 w2 (s_inv _ HS1) Hex H1) as (E1 & E2 & E3).
    split; [eapply once_done_exec; eauto|]. rewrite E1, E2, E3. auto. }
  destruct H' as (Hd' & Hh' & Hc' & Hg').
  pose proof (Sound_run sched' _ HS) as HS'. fold w' in HS'.
  pose proof (inv_once _ (s_inv _ HS')) as Honce. rewrite Hd' in Honce.
  destruct Honce as (Hin & _ & Hcl).
  split; [exact Hd'|]. split; [exact Hcl|]. split; [exact Hh'|].
  split; [exact Hc'|]. split; [exact Hg'|]. split.
  - intros j c o Hj. eapply exec_local; eauto. simpl. unfold once_do.
    rewrite Hd'. reflexivity.
  - intros Hh.
    pose proof (inv_hist _ (s_inv _ HS')) as Hh2. rewrite Hh', Hh, Hcl in Hh2.
    assert (Hs0 : sent (threads w') = 0).
    { destruct (sent (threads w')); [reflexivity | discriminate Hh2]. }
    split.
    + apply (cn_conn _ (s_conn _ HS')). unfold in_once in Hin. lia.
    + intros j Hj. pose proof (cnt_lookup KInjTrue _ _ _ Hj eq_refl).
      unfold sent in Hs0. lia.
Qed.

Lemma X6_inject_after_stop_witness :
  connOnce (proc (run [Run 2 None]
                      (run [Run 0 None; Run 0 None; Run 0 (Some "not found"%string);
                            Run 0 None; Run 1 None; Run 1 None; Run 1 None; Run 1 None;
                            Run 1 None; Run 1 None; Run 1 None]
                           (init [Start_cas; Stop_load; Inject_do 5]))))
  = OnceDone.
Proof.
  refine (proj1 (X6_inject_after_stop [Start_cas; Stop_load; Inject_do 5]
                   [Run 0 None; Run 0 None; Run 0 (Some "not found"%string);
                    Run 0 None; Run 1 None; Run 1 None; Run 1 None; Run 1 None;
                    Run 1 None; Run 1 None; Run 1 None]
                   [Run 2 None] 1 _ _)).
  - repeat constructor.
  - reflexivity.
Defined.

(** ** Termination *)

Lemma total_app t1 t2 : total (t1 ++ t2) = total t1 + total t2.
Proof. induction t1 as [|a t1 IH]; simpl; [reflexivity | rewrite IH; lia]. Qed.

Lemma total_insert (t : list Pc) i a b :
  t !! i = Some a -> total (<[i := b]> t) + weight a = total t + weight b.
Proof.
  revert i. induction t as [|x t IH]; intros [|i] H; simpl in *; try discriminate.
  - injection H as ->. lia.
  - specialize (IH i H). lia.
Qed.

(** Every transition uses up some of the work that is left. *)
Lemma work_exec ev w w' : exec ev w = Some w' -> work w' < work w.
Proof.
  intros Hex. destruct w as [p t]. unfold work. destruct ev as [i o | s]; simpl in Hex.
  - destruct (t !! i) as [pc|] eqn:Hi; [|discriminate].
    destruct (step_pc pc o p) as [[[pc' p'] forked]|] eqn:Hs; [|discriminate].
    injection Hex as <-. simpl.
    rewrite total_app. pose proof (total_insert t i pc pc' Hi) as Ht.
    destruct p as [isR mx we cp gw cn [bf cp' cl hs] once chld tr].
    destruct pc; split_step Hs; simpl in *; try lia;
      destruct chld; simpl; lia.
  - destruct p as [isR mx we cp gw cn ch once chld tr]. simpl in *.
    destruct chld; try discriminate. injection Hex as <-. simpl. lia.
Qed.

Lemma steps_work sched w : steps sched w + work (run sched w) <= work w.
Proof.
  revert w. induction sched as [|ev sched IH]; intros w; simpl; [lia|].
  unfold apply. destruct (exec ev w) as [w'|] eqn:E.
  - pose proof (work_exec _ _ _ E). specialize (IH w'). lia.
  - apply IH.
Qed.

Lemma total_calls calls : valid calls -> total calls <= 14 * length calls.
Proof.
  induction 1 as [|pc calls Hpc _ IH]; simpl; [lia|].
  destruct pc; try discriminate; simpl; lia.
Qed.

(** X8.  The methods do a bounded amount of work: whatever calls are
    made and whatever the schedule (of any length), at most
    14 * n + 1 of its events take effect, n being the number of calls;
    every event that takes effect uses up some of the work left, so no
    goroutine spins or retries. *)
Theorem X8_bounded_work (calls : list Pc) (sched : list Event) :
  valid calls ->
  steps sched (init calls) <= 14 * length calls + 1
  /\ forall ev w', exec ev (run sched (init calls)) = Some w' ->
       work w' < work (run sched (init calls)).
Proof.
  intros Hv. split.
  - pose proof (steps_work sched (init calls)) as H.
    pose proof (total_calls calls Hv). unfold work in H at 2. simpl in H. lia.
  - intros ev w' Hex. eapply work_exec; eauto.
Qed.

Lemma X8_bounded_work_witness :
  steps served_run (init [Start_cas; Inject_do 1; Wait_load])
  <= 14 * length [Start_cas; Inject_do 1; Wait_load] + 1.
Proof.
  refine (proj1 (X8_bounded_work [Start_cas; Inject_do 1; Wait_load] served_run _)).
  repeat constructor.
Defined.

(** ** Absence of deadlock *)

Lemma can_move_exec w : can_move w -> exists ev w', exec ev w = Some w'.
Proof.
  intros (j & pc & [[pc' p'] forked] & Hj & Hs).
  exists (Run j None). eexists. unfold exec. rewrite Hj, Hs. reflexivity.
Qed.

Lemma waiting_exit_exec w : waiting_exit w -> exists ev w', exec ev w = Some w'.
Proof.
  intros [Ha _]. exists (ChildExit None). eexists. simpl. rewrite Ha. reflexivity.
Qed.

(** At a point that is not a wait, the transition is enabled. *)
Lemma free_step pc p :
  may_block pc = false -> returned pc = false ->
  exists m, step_pc pc None p = Some m.
Proof.
  intros Hb Hr. destruct p as [isR mx we cp gw cn [bf cp' cl hs] once chld tr].
  destruct pc; try discriminate Hb; try discriminate Hr;
    cbv beta iota delta [step_pc goto on once_do mutex_lock mutex_unlock chan_send
      chan_recv chan_close]; simpl;
    repeat match goal with
           | |- context [if ?b then _ else _] => destruct b
           | |- context [match ?x with _ => _ end] => destruct x
           end; eauto.
Qed.

(** The goroutine that runs the function of connOnce is never blocked. *)
Lemma runner_moves w : Inv w -> connOnce (proc w) = OnceRunning -> can_move w.
Proof.
  intros HI Hr. pose proof (inv_once _ HI) as Honce. rewrite Hr in Honce.
  destruct Honce as [Hin _].
  destruct (counts_pos _ _ (threads w) counts_in_once) as (j & pc & Hj & Hpc); [lia|].
  exists j, pc.
  destruct (may_block pc) eqn:Hb.
  - destruct pc; try discriminate Hpc; try discriminate Hb.
    pose proof (cnt_lookup KInjSend _ _ _ Hj eq_refl) as Hme.
    pose proof (inv_open _ HI) as Hopen. pose proof (inv_chan _ HI) as Hch.
    pose proof (inv_cap _ HI) as Hcap. pose proof (inv_inj _ HI) as Hinj.
    unfold sent, served in *. simpl. unfold chan_send.
    rewrite Hopen by lia.
    assert (Hlt : (buf (connCh (proc w)) <? cap (connCh (proc w))) = true)
      by (apply Nat.ltb_lt; lia).
    rewrite Hlt. simpl. eexists. split; [exact Hj | reflexivity].
  - destruct (free_step pc (proc w) Hb) as [m Hm].
    + destruct pc; try discriminate Hpc; reflexivity.
    + exists m. auto.
Qed.

Lemma once_moves w j pc :
  Inv w -> threads w !! j = Some pc ->
  (exists c, pc = Inject_do c) \/ pc = Stop_do -> can_move w.
Proof.
  intros HI Hj Hpc.
  destruct (connOnce (proc w)) eqn:Ho; [| apply runner_moves; auto |];
    exists j, pc; destruct Hpc as [[c ->] | ->]; simpl; unfold once_do; rewrite Ho;
    eexists; split; eauto.
Qed.

Lemma recv_moves w j :
  Inv w -> threads w !! j = Some Bg_recv -> can_move w \/ waiting_conn w.
Proof.
  intros HI Hj.
  destruct (chan_recv (connCh (proc w))) as [r| |f] eqn:Hrecv.
  - left. exists j, Bg_recv. simpl. rewrite Hrecv. simpl. eexists. eauto.
  - destruct (connOnce (proc w)) eqn:Ho.
    + destruct (cnt KInjCall (threads w)) eqn:Hc.
      * right. repeat split; eauto.
      * left. destruct (cnt_pos_lookup KInjCall (threads w)) as (i & pc & Hi & Hk); [lia|].
        apply (once_moves w i pc HI Hi). left. kind_cases Hk. eauto.
    + left. apply runner_moves; auto.
    + exfalso. pose proof (inv_once _ HI) as Honce. rewrite Ho in Honce.
      destruct Honce as (_ & _ & Hcl). unfold chan_recv in Hrecv. rewrite Hcl in Hrecv.
      destruct (buf (connCh (proc w))); discriminate.
  - unfold chan_recv in Hrecv.
    destruct (buf (connCh (proc w))); [destruct (closed (connCh (proc w)))|];
      discriminate.
Qed.

Lemma cmd_wait_moves w j :
  ChildInv w -> threads w !! j = Some Bg_cmd_wait -> can_move w \/ waiting_exit w.
Proof.
  intros HC Hj. destruct (child (proc w)) eqn:Hc.
  - exfalso. apply (ci_some _ HC); [|exact Hc].
    pose proof (bgs_lookup _ _ _ Hj eq_refl). lia.
  - right. split; eauto.
  - left. exists j, Bg_cmd_wait. simpl. rewrite Hc. eexists. eauto.
Qed.

(** When waitMx is held, its holder can move, or it waits for the child
    or for the connection. *)
Lemma holder_moves w :
  Inv w -> ChildInv w -> waitMx (proc w) = true ->
  can_move w \/ waiting_exit w \/ waiting_conn w.
Proof.
  intros HI HC Hm. pose proof (inv_mutex _ HI) as Hmx. rewrite Hm in Hmx.
  destruct (counts_pos _ _ (threads w) counts_holders) as (j & pc & Hj & Hpc);
    [simpl in Hmx; lia|].
  destruct (may_block pc) eqn:Hb.
  - destruct pc; try discriminate Hpc; try discriminate Hb.
    + destruct (recv_moves w j HI Hj); auto.
    + destruct (cmd_wait_moves w j HC Hj); auto.
  - left. destruct (free_step pc (proc w) Hb) as [m Hs].
    + destruct pc; try discriminate Hpc; reflexivity.
    + exists j, pc, m. auto.
Qed.

(** A goroutine that has not returned can move, or another one can, or
    the exit of the child is awaited, or the connection is awaited in
    vain. *)
Lemma progress w i pc :
  Inv w -> ChildInv w -> threads w !! i = Some pc -> returned pc = false ->
  can_move w \/ waiting_exit w \/ waiting_conn w.
Proof.
  intros HI HC Hi Hr.
  destruct (may_block pc) eqn:Hb.
  - destruct pc; try discriminate Hb.
    + destruct (waitMx (proc w)) eqn:Hm; [apply holder_moves; auto|].
      left. exists i, Start_lock. simpl. rewrite Hm. eexists. eauto.
    + destruct (recv_moves w i HI Hi); auto.
    + destruct (cmd_wait_moves w i HC Hi); auto.
    + left. eapply once_moves; eauto.
    + left. apply runner_moves; [exact HI|].
      pose proof (inv_once _ HI) as Honce.
      pose proof (cnt_lookup KInjSend _ _ _ Hi eq_refl) as Hme.
      unfold in_once in Honce. destruct (connOnce (proc w)); [|reflexivity|]; lia.
    + destruct (waitMx (proc w)) eqn:Hm; [apply holder_moves; auto|].
      left. exists i, Stop_lock. simpl. rewrite Hm. eexists. eauto.
    + left. eapply once_moves; eauto.
    + destruct (waitMx (proc w)) eqn:Hm; [apply holder_moves; auto|].
      left. exists i, Wait_lock. simpl. rewrite Hm. eexists. eauto.
    + exfalso. pose proof (cnt_lookup KFault _ _ _ Hi eq_refl).
      pose proof (inv_fault _ HI). lia.
  - left. destruct (free_step pc (proc w) Hb Hr) as [m Hs]. exists i, pc, m. auto.
Qed.

Lemma returned_dec (t : list Pc) :
  (forall i pc, t !! i = Some pc -> returned pc = true)
  \/ (exists i pc, t !! i = Some pc /\ returned pc = false).
Proof.
  induction t as [|x t IH].
  - left. intros i pc H. discriminate.
  - destruct (returned x) eqn:Hx.
    + destruct IH as [IH|(i & pc & Hi & Hpc)].
      * left. intros [|i] pc H; simpl in H; [injection H as <-; exact Hx | eauto].
      * right. exists (S i), pc. auto.
    + right. exists 0, x. auto.
Qed.

Lemma waiting_conn_injects w : Inv w -> waiting_conn w -> injects (threads w) = 0.
Proof.
  intros HI (Ho & Hc & _). pose proof (inv_once _ HI) as Honce. rewrite Ho in Honce.
  unfold injects, in_once in *. lia.
Qed.

(** From every state of a supervisor for which a call of InjectConn was
    made, some schedule lets all goroutines return. *)
Lemma completes n : forall w,
  work w <= n -> Sound w -> 0 < injects (threads w) ->
  exists sched, all_returned (run sched w).
Proof.
  induction n as [|n IH]; intros w Hn HS Hinj;
    (destruct (returned_dec (threads w)) as [Hall|(i & pc & Hi & Hpc)];
     [exists []; exact Hall|]);
    (assert (Hstep : exists ev w', exec ev w = Some w');
     [ destruct (progress w i pc (s_inv _ HS) (s_child _ HS) Hi Hpc) as [Hm|[Ha|Hw]];
       [ apply can_move_exec, Hm
       | apply waiting_exit_exec, Ha
       | pose proof (waiting_conn_injects w (s_inv _ HS) Hw); lia ]
     | ]);
    destruct Hstep as (ev & w' & Hex); pose proof (work_exec _ _ _ Hex) as Hlt.
  - lia.
  - destruct (IH w') as [sched Hs].
    + lia.
    + eapply Sound_exec; eauto.
    + destruct (roles_exec _ _ _ (s_inv _ HS) Hex) as (_ & E & _). lia.
    + exists (ev :: sched). simpl. unfold apply. rewrite Hex. exact Hs.
Qed.

(** X7.  Whatever calls are made and however they interleave, as long
    as some goroutine has not returned, one of three things holds: some
    goroutine can make a transition; or the goroutine of Start waits in
    cmd.Wait for the child, which is alive; or no call of InjectConn
    was made at all and the goroutine of Start waits on connCh.  So the
    calls wait for nothing but the exit of the child and the
    connection: when at least one call of InjectConn is made, no state
    is a deadlock, and from every state some schedule (in which the
    child exits) lets every call and the goroutine return. *)
Theorem X7_no_deadlock (calls : list Pc) (sched : list Event) :
  valid calls ->
  let w := run sched (init calls) in
  (forall i pc, threads w !! i = Some pc -> returned pc = false ->
     can_move w \/ waiting_exit w
     \/ (injects calls = 0 /\ exists j, threads w !! j = Some Bg_recv))
  /\ (forall i pc, threads w !! i = Some pc -> returned pc = false ->
        0 < injects calls -> exists ev w', exec ev w = Some w')
  /\ (0 < injects calls -> exists sched', all_returned (run sched' w)).
Proof.
  intros Hv w.
  pose proof (Sound_reachable calls sched Hv) as HS. fold w in HS.
  destruct (roles_run sched _ (Inv_init calls Hv)) as (_ & Hin & _).
  fold w in Hin. simpl in Hin.
  assert (Hprog : forall i pc, threads w !! i = Some pc -> returned pc = false ->
            can_move w \/ waiting_exit w
            \/ (injects calls = 0 /\ exists j, threads w !! j = Some Bg_recv)).
  { intros i pc Hi Hpc.
    destruct (progress w i pc (s_inv _ HS) (s_child _ HS) Hi Hpc) as [Hm|[Ha|Hw]];
      [auto | auto |].
    right; right. split.
    - rewrite <- Hin. apply waiting_conn_injects; [apply (s_inv _ HS) | exact Hw].
    - destruct Hw as (_ & _ & Hj). exact Hj. }
  split; [exact Hprog|]. split.
  - intros i pc Hi Hpc Hpos.
    destruct (Hprog i pc Hi Hpc) as [Hm|[Ha|[H0 _]]];
      [apply can_move_exec, Hm | apply waiting_exit_exec, Ha | lia].
  - intros Hpos. apply (completes (work w)); [lia | exact HS | lia].
Qed.

Lemma X7_no_deadlock_witness :
  exists sched',
    all_returned (run sched' (run [Run 0 None; Run 2 None; Run 0 None]
                                  (init [Start_cas; Inject_do 1; Stop_load; Wait_load]))).
Proof.
  refine (proj2 (proj2 (X7_no_deadlock [Start_cas; Inject_do 1; Stop_load; Wait_load]
                          [Run 0 None; Run 2 None; Run 0 None] _)) _).
  - repeat constructor.
  - vm_compute. lia.
Defined.

(** ** What the result of Start tells *)

(** X9.  Whatever calls are made and however they interleave: when a
    call of Start has returned the error of the spawn, there is no
    child and no goroutine of Start, nothing was recorded (waitErr is
    nil, so Wait returns nil or errProcNotStarted) and the running flag
    is 1; when a call of Start has returned nil, the child was spawned,
    the process handle is set, the running flag is 1 and exactly one
    goroutine of Start exists. *)
Theorem X9_start_outcome (calls : list Pc) (sched : list Event) :
  valid calls ->
  let w := run sched (init calls) in
  (forall i msg, threads w !! i = Some (Start_ret (Some (OSError msg))) ->
     child (proc w) = NoChild /\ trace (proc w) = [] /\ waitErr (proc w) = None
     /\ isRunning (proc w) = 1%Z
     /\ (forall j pc, threads w !! j = Some pc -> is_bg pc = false)
     /\ (forall j r, threads w !! j = Some (Wait_ret r) ->
           r = None \/ r = Some errProcNotStarted))
  /\ (forall i, threads w !! i = Some (Start_ret None) ->
        child (proc w) <> NoChild /\ cmdProcess (proc w) = true
        /\ isRunning (proc w) = 1%Z
        /\ (exists j pc, threads w !! j = Some pc /\ is_bg pc = true)
        /\ (forall j k a b, threads w !! j = Some a -> threads w !! k = Some b ->
              is_bg a = true -> is_bg b = true -> j = k)).
Proof.
  intros Hv w.
  destruct (Sound_reachable calls sched Hv) as [HI HC HT HW HN _].
  fold w in HI, HC, HT, HW, HN.
  pose proof (inv_flag _ HI) as Hflag. pose proof (inv_bg _ HI) as Hbg.
  unfold won in Hflag.
  split.
  - intros i msg Hi.
    pose proof (cnt_lookup KStartErr _ _ _ Hi eq_refl) as Hme.
    assert (Hb0 : bgs (threads w) = 0) by lia.
    split; [apply (ci_none _ HC); lia|]. split; [apply (inv_trace0 _ HI Hb0)|].
    split; [apply (inv_noexit _ HI); unfold bgs in Hb0; lia|].
    split; [lia|]. split.
    + intros j pc Hj. destruct (is_bg pc) eqn:Hb; [|reflexivity].
      pose proof (bgs_lookup _ _ _ Hj Hb). lia.
    + intros j r Hj. destruct (HW j r (or_intror Hj)) as [H|[H|[Hpos _]]]; auto.
      unfold bgs in Hb0. lia.
  - intros i Hi.
    pose proof (cnt_lookup KStartNil _ _ _ Hi eq_refl) as Hme.
    assert (Hb1 : bgs (threads w) = 1) by lia.
    split; [apply (ci_some _ HC); lia|]. split; [apply (inv_process _ HI); lia|].
    split; [lia|]. split.
    + apply (counts_pos _ _ _ counts_bgs). lia.
    + intros j k a b Hj Hk Ha Hb. destruct (decide (j = k)) as [E|E]; [exact E|].
      pose proof (bgs_two _ _ _ _ _ E Hj Hk Ha Hb). lia.
Qed.

Lemma X9_start_outcome_witness :
  child (proc (spawn_failed "not found" [Wait_load])) = NoChild
  /\ trace (proc (spawn_failed "not found" [Wait_load])) = []
  /\ waitErr (proc (spawn_failed "not found" [Wait_load])) = None
  /\ isRunning (proc (spawn_failed "not found" [Wait_load])) = 1%Z
  /\ (forall j pc, threads (spawn_failed "not found" [Wait_load]) !! j = Some pc ->
        is_bg pc = false)
  /\ (forall j r, threads (spawn_failed "not found" [Wait_load]) !! j = Some (Wait_ret r) ->
        r = None \/ r = Some errProcNotStarted).
Proof.
  refine (proj1 (X9_start_outcome [Start_cas; Wait_load]
                   [Run 0 None; Run 0 None; Run 0 (Some "not found"%string); Run 0 None] _)
            0 "not found"%string _).
  - repeat constructor.
  - reflexivity.
Defined.

(** ** The cleanup after the exit of the child *)

(** X10.  Once the child has exited while the goroutine of Start waits
    in cmd.Wait, the goroutine needs nobody else: five transitions of
    its own record the exit status in waitErr, close the connection
    (whatever error that returns), close the resources of the two
    managers and release waitMx, leaving only the deferred stop of the
    discovery publisher to do. *)
Theorem X10_cleanup_runs (calls : list Pc) (sched : list Event) (i : nat)
    (st : option error) (o : option string) :
  valid calls ->
  let w := run sched (init calls) in
  threads w !! i = Some Bg_cmd_wait ->
  child (proc w) = Exited st ->
  let w' := run [Run i None; Run i o; Run i None; Run i None; Run i None] w in
  threads w' = <[i := Bg_disc_stop]> (threads w)
  /\ waitMx (proc w') = false
  /\ waitErr (proc w') = st
  /\ child (proc w') = Exited st
  /\ trace (proc w')
     = [ActServe; ActDiscStart; ActRecordExit st; ActConnClose (close_warns o);
        ActCmCloseAll; ActLmCloseAll; ActUnlock].
Proof.
  intros Hv w Hi Hc.
  destruct (Sound_reachable calls sched Hv) as [HI _ HT _ _ _]. fold w in HI, HT.
  pose proof (cnt_lookup KBgPreWait _ _ _ Hi eq_refl) as Hme.
  assert (Hconn : conn (proc w) <> None).
  { apply (inv_conn _ HI). pose proof (inv_chan _ HI) as Hch.
    unfold sent, served in *. lia. }
  assert (Hmx : waitMx (proc w) = true).
  { pose proof (inv_mutex _ HI) as Hm. unfold holders in Hm.
    destruct (waitMx (proc w)); [reflexivity | simpl in Hm; lia]. }
  destruct (HT i _ Hi) as [b Htr]. simpl in Htr.
  assert (Hlen : i < length (threads w)) by (eapply lookup_lt_Some; eauto).
  clearbody w. destruct w as [p t].
  destruct p as [isR mx we cp gw cn ch once chld tr]. simpl in *. subst.
  destruct cn as [c|]; [|congruence].
  cbv zeta.
  unfold run, apply, exec. simpl.
  rewrite Hi. simpl.
  rewrite !app_nil_r.
  repeat (rewrite list_lookup_insert_eq by (rewrite ?length_insert; exact Hlen);
          simpl; rewrite ?app_nil_r, ?list_insert_insert_eq).
  repeat split.
Qed.

Lemma X10_cleanup_runs_witness :
  waitMx (proc (run [Run 3 None; Run 3 (Some "use of closed network connection"%string);
                     Run 3 None; Run 3 None; Run 3 None]
                    (run (connected ++ [Run 3 None; Run 3 None; Run 3 None;
                                        ChildExit (Some "exit status 1"%string)])
                         (init [Start_cas; Inject_do 1; Wait_load]))))
  = false.
Proof.
  refine (proj1 (proj2 (X10_cleanup_runs [Start_cas; Inject_do 1; Wait_load]
                   (connected ++ [Run 3 None; Run 3 None; Run 3 None;
                                  ChildExit (Some "exit status 1"%string)])
                   3 (Some (OSError "exit status 1"))
                   (Some "use of closed network connection"%string) _ _ _))).
  - repeat constructor.
  - reflexivity.
  - reflexivity.
Defined.

(** ** What the goroutine of Start has done, at any time *)




(** ** The command gen-config *)

Section GenConfigFacts.

Import Ascii GenConfig.

Context {SecKey PubKey Rest : Type}.

Variable d : Deps SecKey PubKey Rest.

Lemma Split_length s c : length (Split s c) = S (occurrences c s).
Proof.
  induction s as [|a s IH]; simpl; [reflexivity|].
  destruct (Ascii.eqb a c); simpl; [rewrite IH; reflexivity|].
  destruct (Split s c) as [|x r]; simpl in *; lia.
Qed.

Lemma Split_Join s c : Join (Split s c) c = s.
Proof.
  induction s as [|a s IH]; simpl; [reflexivity|].
  destruct (Ascii.eqb a c) eqn:E.
  - apply Ascii.eqb_eq in E. subst a.
    pose proof (Split_length s c) as Hl.
    destruct (Split s c) as [|x r]; [discriminate|].
    change (Join (EmptyString :: x :: r) c) with (String c (Join (x :: r) c)).
    rewrite IH. reflexivity.
  - pose proof (Split_length s c) as Hl.
    destruct (Split s c) as [|x r]; [discriminate|].
    destruct r as [|y r]; simpl in *; rewrite IH; reflexivity.
Qed.

(** The loop over the keys: it appends the parsed keys in order and
    touches nothing else, or stops at the first key that does not
    parse. *)
Lemma addHypervisors_ok keys (conf conf' : V1 SecKey PubKey Rest) :
  addHypervisors d keys conf = inr conf' ->
  exists pks,
    Forall2 (fun key pk => PubKeyFromHex d (TrimSpace d key) = inl pk) keys pks
    /\ Hypervisors conf' = Hypervisors conf ++ pks
    /\ SK conf' = SK conf /\ others conf' = others conf.
Proof.
  revert conf. induction keys as [|key keys IH]; intros conf H; simpl in H.
  - injection H as <-. exists []. rewrite app_nil_r. repeat split. constructor.
  - destruct (PubKeyFromHex d (TrimSpace d key)) as [pk|err] eqn:E;
      [|discriminate].
    destruct (IH _ H) as (pks & HF & HH & HS & HO). simpl in *.
    exists (pk :: pks). split; [constructor; auto|].
    rewrite HH, <- app_assoc. auto.
Qed.

Lemma addHypervisors_bad good bad rest err conf :
  Forall (fun key => exists pk, PubKeyFromHex d (TrimSpace d key) = inl pk) good ->
  PubKeyFromHex d (TrimSpace d bad) = inr err ->
  addHypervisors d (good ++ bad :: rest) conf
  = inl (EFatal ("Failed to parse hypervisor private key: " ++ bad ++ ".")%string
                (Some err)).
Proof.
  intros Hg Hb. revert conf. induction Hg as [|key good [pk Hk] _ IH]; intros conf; simpl.
  - rewrite Hb. reflexivity.
  - rewrite Hk. apply IH.
Qed.

Lemma addHypervisors_fatal keys (conf : V1 SecKey PubKey Rest) e :
  addHypervisors d keys conf = inl e -> exists msg err, e = EFatal msg err.
Proof.
  revert conf. induction keys as [|key keys IH]; intros conf H; simpl in H;
    [discriminate|].
  destruct (PubKeyFromHex d (TrimSpace d key)); [eapply IH; eauto|].
  injection H as <-. eauto.
Qed.

(** X11.  Whatever the flags, the files and the results of the library
    calls, a run of gen-config ends in one of four ways: a fatal error
    before any attempt to write; a flush that fails, then a fatal
    error; a flush that succeeds, then a fatal error (the JSON of the
    log line could not be made); a flush that succeeds, then the log of
    the result.  So the config is flushed at most once and a fatal
    error is the last thing a run does.  A config file that exists is
    never replaced without the replace flag, whatever it contains; a
    file that cannot be read for another reason than its absence, or
    that does not parse, ends the run before any attempt to write. *)
Theorem X11_gen_config_effects (f : Flags SecKey) :
  ((exists msg err, Run d f = [EFatal msg err])
   \/ (exists conf e,
         Run d f = [EFlush conf (Some e); EFatal "Failed to flush config to file." (Some e)]
         /\ Flush d conf = Some e)
   \/ (exists conf msg err,
         Run d f = [EFlush conf None; EFatal msg err] /\ Flush d conf = None)
   \/ (exists conf j,
         Run d f
         = [EFlush conf None;
            EInfo ("Updated file '" ++ output f ++ "' to: " ++ j)%string]
         /\ Flush d conf = None /\ MarshalIndent d conf = inl j))
  /\ (forall raw, ReadFile d (output f) = inl raw -> replace f = false ->
        Run d f
        = [EFatal "Config file already exists. Specify the 'replace,r' flag to replace this."
                  None])
  /\ (forall msg, ReadFile d (output f) = inr (OtherReadError msg) ->
        Run d f
        = [EFatal "Unexpected error occurred when attempting to read old config."
                  (Some msg)])
  /\ (forall raw err, ReadFile d (output f) = inl raw -> replace f = true ->
        Parse d (output f) raw = inr err ->
        Run d f = [EFatal "Failed to parse old config file." (Some err)]).
Proof.
  split; [|split; [|split]].
  - unfold Run.
    destruct (readOldConfig d (output f) (replace f)) as [e|old] eqn:Hold.
    + left. unfold readOldConfig in Hold.
      destruct (ReadFile d (output f)) as [raw|[|m]];
        [destruct (negb (replace f)); [|destruct (Parse d (output f) raw)]| |];
        try discriminate; injection Hold as <-; eauto.
    + destruct (genConf d f (output f) (chooseKey d old) (hypervisor f)) as [conf|err];
        [|left; eauto].
      destruct (if (hypervisorPKs f =? "")%string then inr conf
                else addHypervisors d (Split (hypervisorPKs f) ",") conf)
        as [e|conf'] eqn:Hadd.
      * left. destruct (hypervisorPKs f =? "")%string; [discriminate|].
        destruct (addHypervisors_fatal _ _ _ Hadd) as (msg & err & ->). eauto.
      * destruct (Flush d conf') eqn:HF; [right; left; eauto|].
        destruct (MarshalIndent d conf') eqn:HM; right; right; [right | left];
          eauto 10.
  - intros raw Hr Hrep. unfold Run, readOldConfig. rewrite Hr, Hrep. reflexivity.
  - intros msg Hr. unfold Run, readOldConfig. rewrite Hr. reflexivity.
  - intros raw err Hr Hrep Hp. unfold Run, readOldConfig. rewrite Hr, Hrep, Hp.
    reflexivity.
Qed.

Lemma Split_trailing s c : Split (s ++ String c "") c = Split s c ++ [""%string].
Proof.
  induction s as [|a s IH]; simpl.
  - rewrite Ascii.eqb_refl. reflexivity.
  - rewrite IH. destruct (Ascii.eqb a c); [reflexivity|].
    pose proof (Split_length s c) as Hl.
    destruct (Split s c) as [|x r]; [discriminate | reflexivity].
Qed.

(** A config that a run flushes is the generated one with the keys of
    the flag added. *)
Lemma Run_flushed (f : Flags SecKey) (conf : V1 SecKey PubKey Rest) r :
  In (EFlush conf r) (Run d f) ->
  exists old base,
    readOldConfig d (output f) (replace f) = inr old
    /\ genConf d f (output f) (chooseKey d old) (hypervisor f) = inl base
    /\ (if (hypervisorPKs f =? "")%string then inr base
        else addHypervisors d (Split (hypervisorPKs f) ",") base) = inr conf.
Proof.
  intros Hin. unfold Run in Hin.
  destruct (readOldConfig d (output f) (replace f)) as [e|old] eqn:Hold.
  { unfold readOldConfig in Hold.
    destruct (ReadFile d (output f)) as [raw|[|m]];
      [destruct (negb (replace f)); [|destruct (Parse d (output f) raw)]| |];
      try discriminate; injection Hold as <-; simpl in Hin; intuition discriminate. }
  destruct (genConf d f (output f) (chooseKey d old) (hypervisor f)) as [base|err] eqn:Hg;
    [|simpl in Hin; intuition discriminate].
  exists old, base. split; [reflexivity|]. split; [exact Hg|].
  destruct (if (hypervisorPKs f =? "")%string then inr base
            else addHypervisors d (Split (hypervisorPKs f) ",") base) as [e|conf'] eqn:Hadd.
  { destruct (hypervisorPKs f =? "")%string; [discriminate|].
    destruct (addHypervisors_fatal _ _ _ Hadd) as (msg & err & ->).
    simpl in Hin. intuition discriminate. }
  destruct (Flush d conf'); [|destruct (MarshalIndent d conf')]; simpl in Hin;
    destruct Hin as [H|[H|[]]]; try discriminate H; injection H as <- _;
    reflexivity.
Qed.

(** X12.  Provided the three config generators put the secret key they
    are given into the config they return: when gen-config flushes a
    config, its secret key is the one of the old config file if that
    file exists (then the replace flag is set and the file parses), and
    the freshly generated one if the file does not exist.  The value of
    the sk flag plays no part: the variable sk of Run hides it. *)
Theorem X12_gen_config_key (f : Flags SecKey) (conf : V1 SecKey PubKey Rest)
    (r : option string) :
  (forall path k h c, MakePackageConfig d path k h = inl c -> SK c = k) ->
  (forall path k h c, MakeTestConfig d path k h = inl c -> SK c = k) ->
  (forall path k h c, MakeDefaultConfig d path k h = inl c -> SK c = k) ->
  In (EFlush conf r) (Run d f) ->
  (ReadFile d (output f) = inr NotExist /\ SK conf = snd (GenerateKeyPair d))
  \/ (exists raw old, ReadFile d (output f) = inl raw /\ replace f = true
                      /\ Parse d (output f) raw = inl old /\ SK conf = SK old).
Proof.
  intros HP HT HD Hin.
  destruct (Run_flushed f conf r Hin) as (old & base & Hold & Hg & Hadd).
  assert (Hbase : SK base = chooseKey d old).
  { revert Hg. unfold genConf.
    destruct (packageConfig f); [apply HP|]. destruct (testEnv f); [apply HT | apply HD]. }
  assert (Hsk : SK conf = SK base).
  { destruct (hypervisorPKs f =? "")%string.
    - injection Hadd as <-. reflexivity.
    - destruct (addHypervisors_ok _ _ _ Hadd) as (_ & _ & _ & H & _). exact H. }
  rewrite Hsk, Hbase. clear Hsk Hbase Hg Hadd Hin.
  unfold readOldConfig in Hold.
  destruct (ReadFile d (output f)) as [raw|[|m]]; try discriminate.
  - right. destruct (replace f); simpl in Hold; [|discriminate].
    destruct (Parse d (output f) raw) as [o|] eqn:HPa; [|discriminate].
    injection Hold as <-. exists raw, o. auto.
  - left. injection Hold as <-. auto.
Qed.

(** X13.  When gen-config flushes a config, its hypervisors are those
    of the generated config followed by the keys of the hypervisor-pks
    flag, parsed after trimming, one per comma-separated field and in
    the order of the flag (so one more than there are commas, and
    joining the fields gives the flag back); nothing else of the
    generated config is changed, and an empty flag adds nothing.  The
    first field that does not parse ends the run with a fatal error
    naming it, before anything is written; in particular, when the
    empty string is no key, a flag that ends with a comma writes
    nothing. *)
Theorem X13_gen_config_hypervisors (f : Flags SecKey) :
  (forall conf r, In (EFlush conf r) (Run d f) ->
     exists old base pks,
       genConf d f (output f) (chooseKey d old) (hypervisor f) = inl base
       /\ Hypervisors conf = Hypervisors base ++ pks
       /\ SK conf = SK base /\ others conf = others base
       /\ (hypervisorPKs f = ""%string -> pks = [])
       /\ (hypervisorPKs f <> ""%string ->
           Forall2 (fun key pk => PubKeyFromHex d (TrimSpace d key) = inl pk)
                   (Split (hypervisorPKs f) ",") pks
           /\ length pks = S (occurrences "," (hypervisorPKs f))
           /\ Join (Split (hypervisorPKs f) ",") "," = hypervisorPKs f))
  /\ (forall good bad rest err,
        hypervisorPKs f <> ""%string ->
        Split (hypervisorPKs f) "," = good ++ bad :: rest ->
        Forall (fun key => exists pk, PubKeyFromHex d (TrimSpace d key) = inl pk) good ->
        PubKeyFromHex d (TrimSpace d bad) = inr err ->
        (forall conf r, ~ In (EFlush conf r) (Run d f))
        /\ (forall old base,
              readOldConfig d (output f) (replace f) = inr old ->
              genConf d f (output f) (chooseKey d old) (hypervisor f) = inl base ->
              Run d f
              = [EFatal ("Failed to parse hypervisor private key: " ++ bad ++ ".")%string
                        (Some err)]))
  /\ (forall s err,
        hypervisorPKs f = (s ++ ",")%string ->
        PubKeyFromHex d (TrimSpace d "") = inr err ->
        forall conf r, ~ In (EFlush conf r) (Run d f)).
Proof.
  assert (Hbad : forall good bad rest err,
            hypervisorPKs f <> ""%string ->
            Split (hypervisorPKs f) "," = good ++ bad :: rest ->
            Forall (fun key => exists pk, PubKeyFromHex d (TrimSpace d key) = inl pk) good ->
            PubKeyFromHex d (TrimSpace d bad) = inr err ->
            forall conf r, ~ In (EFlush conf r) (Run d f)).
  { intros good bad rest err Hne Hsp Hg Hb conf r Hin.
    destruct (Run_flushed f conf r Hin) as (old & base & _ & _ & Hadd).
    apply String.eqb_neq in Hne. rewrite Hne, Hsp in Hadd.
    rewrite (addHypervisors_bad good bad rest err base Hg Hb) in Hadd. discriminate. }
  split; [|split].
  - intros conf r Hin.
    destruct (Run_flushed f conf r Hin) as (old & base & _ & Hg & Hadd).
    destruct (hypervisorPKs f =? "")%string eqn:E.
    + injection Hadd as <-. apply String.eqb_eq in E.
      exists old, base, []. rewrite app_nil_r. split_and!; auto.
      intros Hne. contradiction.
    + apply String.eqb_neq in E.
      destruct (addHypervisors_ok _ _ _ Hadd) as (pks & HF & HH & HS & HO).
      exists old, base, pks. split_and!; auto.
      * intros Hemp. contradiction.
      * intros _. split_and!; [exact HF | | apply Split_Join].
        rewrite <- (Forall2_length _ _ _ HF). apply Split_length.
  - intros good bad rest err Hne Hsp Hg Hb. split; [eapply Hbad; eauto|].
    intros old base Hold Hgen. unfold Run. rewrite Hold, Hgen.
    apply String.eqb_neq in Hne. rewrite Hne, Hsp.
    rewrite (addHypervisors_bad good bad rest err base Hg Hb). reflexivity.
  - intros s err Hs Hb conf r Hin.
    destruct (Run_flushed f conf r Hin) as (old & base & _ & _ & Hadd).
    assert (Hne : (hypervisorPKs f =? "")%string = false).
    { rewrite Hs. destruct s; reflexivity. }
    rewrite Hne, Hs, Split_trailing in Hadd.
    destruct (addHypervisors_ok _ _ _ Hadd) as (pks & HF & _).
    apply Forall2_app_inv_l in HF. destruct HF as (p1 & p2 & _ & H2 & _).
    inversion H2 as [|? pk ? ? Hpk]. subst. congruence.
Qed.

End GenConfigFacts.

Section GenConfigRun.

Import GenConfig.

Lemma X12_gen_config_key_witness :
  (ReadFile sample_deps (output (sample_flags "ab,cde")) = inr NotExist
   /\ SK (mkV1 2 [7; 2; 3] tt) = snd (GenerateKeyPair sample_deps))
  \/ (exists raw old,
        ReadFile sample_deps (output (sample_flags "ab,cde")) = inl raw
        /\ replace (sample_flags "ab,cde") = true
        /\ Parse sample_deps (output (sample_flags "ab,cde")) raw = inl old
        /\ SK (mkV1 2 [7; 2; 3] tt) = SK old).
Proof.
  apply (X12_gen_config_key sample_deps (sample_flags "ab,cde") (mkV1 2 [7; 2; 3] tt)
           None).
  - intros path k h c H. injection H as <-. reflexivity.
  - intros path k h c H. injection H as <-. reflexivity.
  - intros path k h c H. injection H as <-. reflexivity.
  - left. reflexivity.
Defined.

End GenConfigRun.
